(** * Session relay server (server.cjs): a shallow embedding

    The server keeps one global [Map] from session ids to session objects
    ([activeSessions]) and reacts to socket.io events.  Every handler runs to
    completion on Node's single event loop, so a handler is a function from
    the server state to a new state and the list of emissions it performed.

    Parts of the state that live inside socket.io rather than in server.cjs
    (which socket joined which room) are modelled after the library's
    documented behaviour, because [socket.to(room).emit] and
    [io.to(room).emit] are resolved against them. *)

From Stdlib Require Import List String Bool ZArith Relations.
Import ListNotations.
Open Scope string_scope.
Open Scope list_scope.

(** ** JavaScript containers *)

(** A JS [Set] of strings: elements are kept in insertion order, without
    repetition. *)
Module JsSet.
Definition t := list string.

Definition has (x : string) (s : t) : bool := existsb (String.eqb x) s.

Definition add (x : string) (s : t) : t := if has x s then s else s ++ [x].

Definition delete (x : string) (s : t) : t :=
  filter (fun y => negb (String.eqb x y)) s.

Definition size (s : t) : nat := List.length s.
End JsSet.

(** A JS [Map] with string keys: entries are kept in insertion order;
    [set] on a key that is present replaces the value in place. *)
Module JsMap.
Section Values.
Context {V : Type}.

Definition t := list (string * V).

Fixpoint get (k : string) (m : t) : option V :=
  match m with
  | [] => None
  | (k', v) :: rest => if String.eqb k k' then Some v else get k rest
  end.

Definition has (k : string) (m : t) : bool :=
  match get k m with Some _ => true | None => false end.

Fixpoint set (k : string) (v : V) (m : t) : t :=
  match m with
  | [] => [(k, v)]
  | (k', v') :: rest =>
      if String.eqb k k' then (k, v) :: rest else (k', v') :: set k v rest
  end.

Definition delete (k : string) (m : t) : t :=
  filter (fun e => negb (String.eqb k (fst e))) m.

Definition keys (m : t) : list string := map fst m.
End Values.
Arguments t : clear implicits.
End JsMap.

(** JS truthiness of a string: only the empty string is falsy. *)
Definition truthy (s : string) : bool := negb (String.eqb s "").

(** ** Data model *)

(** The object stored under a session id.  [createdAt] is the value of
    [new Date()] when the object was built. *)
Record session : Type := mkSession {
  host : string;
  participants : JsSet.t;
  active : bool;
  createdAt : Z
}.

Definition with_participants (ps : JsSet.t) (s : session) : session :=
  mkSession (host s) ps (active s) (createdAt s).

Definition with_host (h : string) (s : session) : session :=
  mkSession h (participants s) (active s) (createdAt s).

Definition with_active (a : bool) (s : session) : session :=
  mkSession (host s) (participants s) a (createdAt s).

(** The object literal built by [create-session] and by the fallback branch
    of [join-session]. *)
Definition new_session (socket_id : string) (now : Z) : session :=
  mkSession socket_id [socket_id] true now.

(** The server state.  [sockets] is socket.io's table of connected sockets
    with the rooms each has joined; [timers] holds the session ids of the
    pending [setTimeout] callbacks of [close-session]. *)
Record server : Type := mkServer {
  activeSessions : JsMap.t session;
  sockets : JsMap.t JsSet.t;
  timers : list string
}.

Definition init : server := mkServer [] [] [].

Definition with_sessions (m : JsMap.t session) (st : server) : server :=
  mkServer m (sockets st) (timers st).

(** ** Outbound events *)

Inductive role : Type := Host | Participant.

Inductive payload : Type :=
| connection_successful
    (sessionId : string) (r : role) (status : option string)
    (hostId : option string)
| session_error (code message : string)
| participant_joined (id : string)
| participants_list (ids : list string)
| participant_left (id : string)
| new_host (id : string)
| session_closed (sessionId : string)
| audio_chunk (data : list Byte.byte)
| participant_recording (id : string)
| stop_recording
| check_reply (exists_ : bool).

(** Where an emission is addressed: [socket.emit] (and the acknowledgement
    callback), [socket.to(room).emit], [io.to(room).emit]. *)
Inductive target : Type :=
| to_socket (socket_id : string)
| to_room_except (room sender : string)
| to_room (room : string).

Record emission : Type := mkEmit { dest : target; msg : payload }.

(** ** socket.io rooms *)

(** [socket.join(room)]. *)
Definition socket_join (socket_id room : string) (st : server) : server :=
  match JsMap.get socket_id (sockets st) with
  | Some rooms =>
      mkServer (activeSessions st)
               (JsMap.set socket_id (JsSet.add room rooms) (sockets st))
               (timers st)
  | None => st
  end.

(** On connection a socket joins the room named by its own id. *)
Definition socket_connect (socket_id : string) (st : server) : server :=
  mkServer (activeSessions st)
           (JsMap.set socket_id [socket_id] (sockets st))
           (timers st).

(** A closing socket leaves all its rooms before ['disconnect'] is
    delivered to the handler. *)
Definition socket_close (socket_id : string) (st : server) : server :=
  mkServer (activeSessions st)
           (JsMap.delete socket_id (sockets st))
           (timers st).

Definition in_room (st : server) (room socket_id : string) : bool :=
  match JsMap.get socket_id (sockets st) with
  | Some rooms => JsSet.has room rooms
  | None => false
  end.

Definition room_members (st : server) (room : string) : list string :=
  map fst (filter (fun e => JsSet.has room (snd e)) (sockets st)).

(** The sockets an emission reaches, given the rooms at emission time:
    the socket itself for [socket.emit] and the sockets of the room for
    [io.to(room).emit].  [socket.to(room).emit] broadcasts to the room with
    the room named by the sender's id excepted: it reaches the sockets of
    [room] that are not in that room, which holds the sender and every
    socket that joined a room of that name. *)
Definition recipients (st : server) (t : target) : list string :=
  match t with
  | to_socket s => [s]
  | to_room_except room sender =>
      map fst
        (filter (fun e => JsSet.has room (snd e)
                          && negb (JsSet.has sender (snd e)))
                (sockets st))
  | to_room room => room_members st room
  end.

Definition deliveries (st : server) (out : list emission)
  : list (string * payload) :=
  flat_map (fun e => map (fun s => (s, msg e)) (recipients st (dest e))) out.

(** ** Handlers of server.cjs *)

Definition result : Type := server * list emission.

(** [socket.on('create-session', ...)] *)
Definition create_session (now : Z) (socket_id sessionId : string)
    (st : server) : result :=
  let st1 :=
    with_sessions
      (JsMap.set sessionId (new_session socket_id now) (activeSessions st)) st in
  let st2 := socket_join socket_id sessionId st1 in
  (st2, [mkEmit (to_socket socket_id)
           (connection_successful sessionId Host (Some "created") None)]).

(** The boolean that [check-session] passes to its callback. *)
Definition session_exists (sessionId : string) (st : server) : bool :=
  match JsMap.get sessionId (activeSessions st) with
  | Some s => active s
  | None => false
  end.

(** [socket.on('check-session', (sessionId, callback) => ...)].  [callback]
    tells whether the client sent an acknowledgement function.  Without one
    the call [callback(...)] throws before the handler has done anything;
    see [throws]. *)
Definition check_session (socket_id sessionId : string) (callback : bool)
    (st : server) : result :=
  if callback then
    (st, [mkEmit (to_socket socket_id)
            (check_reply (session_exists sessionId st))])
  else (st, []).

(** [socket.on('join-session', ...)] *)
Definition join_session (now : Z) (socket_id sessionId : string)
    (st : server) : result :=
  match JsMap.get sessionId (activeSessions st) with
  | Some s =>
      if negb (active s) then
        (st, [mkEmit (to_socket socket_id)
                (session_error "SESSION_CLOSED"
                   "This session has been closed by the host.")])
      else
        let st1 := socket_join socket_id sessionId st in
        let s' := with_participants (JsSet.add socket_id (participants s)) s in
        let st2 :=
          with_sessions (JsMap.set sessionId s' (activeSessions st1)) st1 in
        (st2,
         [mkEmit (to_socket socket_id)
            (connection_successful sessionId Participant None (Some (host s')));
          mkEmit (to_room_except sessionId socket_id)
            (participant_joined socket_id);
          mkEmit (to_socket socket_id)
            (participants_list
               (filter (fun id => negb (String.eqb id socket_id))
                       (participants s')))])
  | None =>
      let st1 :=
        with_sessions
          (JsMap.set sessionId (new_session socket_id now) (activeSessions st))
          st in
      let st2 := socket_join socket_id sessionId st1 in
      (st2, [mkEmit (to_socket socket_id)
               (connection_successful sessionId Host
                  (Some "created-on-join") None)])
  end.

(** [function handleParticipantLeaving(socketId, sessionId)].  The test
    [participants.size === 0] is the [[]] case; in the other case
    [Array.from(session.participants)[0]] is the head of the list. *)
Definition handleParticipantLeaving (socketId sessionId : string)
    (st : server) : result :=
  match JsMap.get sessionId (activeSessions st) with
  | None => (st, [])
  | Some s =>
      let ps := JsSet.delete socketId (participants s) in
      let left := mkEmit (to_room sessionId) (participant_left socketId) in
      match ps with
      | [] =>
          (with_sessions (JsMap.delete sessionId (activeSessions st)) st,
           [left])
      | newHost :: _ =>
          if String.eqb (host s) socketId && (0 <? JsSet.size ps)%nat then
            (with_sessions
               (JsMap.set sessionId
                  (with_host newHost (with_participants ps s))
                  (activeSessions st)) st,
             [left; mkEmit (to_room sessionId) (new_host newHost)])
          else
            (with_sessions
               (JsMap.set sessionId (with_participants ps s)
                  (activeSessions st)) st,
             [left])
      end
  end.

(** [socket.on('leave-session', ...)] *)
Definition leave_session (socket_id sessionId : string) (st : server)
  : result :=
  if truthy sessionId && JsMap.has sessionId (activeSessions st) then
    handleParticipantLeaving socket_id sessionId st
  else (st, []).

(** [socket.on('close-session', ...)].  The [setTimeout] call is recorded
    in [timers]; its callback is [close_timeout] below. *)
Definition close_session (socket_id sessionId : string) (st : server)
  : result :=
  if truthy sessionId then
    match JsMap.get sessionId (activeSessions st) with
    | Some s =>
        if String.eqb (host s) socket_id then
          (mkServer
             (JsMap.set sessionId (with_active false s) (activeSessions st))
             (sockets st)
             (timers st ++ [sessionId]),
           [mkEmit (to_room sessionId) (session_closed sessionId)])
        else
          (st, [mkEmit (to_socket socket_id)
                  (session_error "NOT_SESSION_HOST"
                     "Only the session host can close a session.")])
    | None => (st, [])
    end
  else (st, []).

(** Removes the first pending timer for [sessionId]. *)
Fixpoint timer_done (sessionId : string) (ts : list string) : list string :=
  match ts with
  | [] => []
  | t :: rest =>
      if String.eqb sessionId t then rest else t :: timer_done sessionId rest
  end.

(** The callback given to [setTimeout] by [close-session]. *)
Definition close_timeout (sessionId : string) (st : server) : result :=
  let st1 :=
    mkServer (activeSessions st) (sockets st)
             (timer_done sessionId (timers st)) in
  if JsMap.has sessionId (activeSessions st1) then
    (with_sessions (JsMap.delete sessionId (activeSessions st1)) st1, [])
  else (st1, []).

(** [socket.on('audio-chunk', ...)] *)
Definition audio_chunk_handler (socket_id : string)
    (audioChunk : list Byte.byte) (sessionId : string) (st : server)
  : result :=
  if negb (truthy sessionId)
     || negb (JsMap.has sessionId (activeSessions st))
     || negb (session_exists sessionId st)
  then (st, [])
  else (st, [mkEmit (to_room_except sessionId socket_id)
               (audio_chunk audioChunk)]).

(** [socket.on('recording-started', ...)] *)
Definition recording_started (socket_id sessionId : string) (st : server)
  : result :=
  if truthy sessionId && JsMap.has sessionId (activeSessions st) then
    (st, [mkEmit (to_room_except sessionId socket_id)
            (participant_recording socket_id)])
  else (st, []).

(** [socket.on('stop-recording', ...)] *)
Definition stop_recording_handler (socket_id sessionId : string)
    (st : server) : result :=
  if truthy sessionId && JsMap.has sessionId (activeSessions st) then
    (st, [mkEmit (to_room sessionId) stop_recording])
  else (st, []).

(** One turn of the [activeSessions.forEach] callback of the disconnect
    handler, for the entry with key [sessionId].  An entry that is no longer
    in the map when its turn comes is skipped. *)
Definition disconnect_visit (socket_id : string) (acc : result)
    (sessionId : string) : result :=
  match JsMap.get sessionId (activeSessions (fst acc)) with
  | Some s =>
      if JsSet.has socket_id (participants s) then
        let r := handleParticipantLeaving socket_id sessionId (fst acc) in
        (fst r, snd acc ++ snd r)
      else acc
  | None => acc
  end.

(** [socket.on('disconnect', ...)], after socket.io took the socket out of
    its rooms. *)
Definition disconnect (socket_id : string) (st : server) : result :=
  let st1 := socket_close socket_id st in
  fold_left (disconnect_visit socket_id)
            (JsMap.keys (activeSessions st1)) (st1, []).

(** ** Inputs and runs *)

Inductive event : Type :=
| ev_connection
| ev_create_session (sessionId : string)
| ev_check_session (sessionId : string) (callback : bool)
| ev_join_session (sessionId : string)
| ev_leave_session (sessionId : string)
| ev_close_session (sessionId : string)
| ev_audio_chunk (audioChunk : list Byte.byte) (sessionId : string)
| ev_recording_started (sessionId : string)
| ev_stop_recording (sessionId : string)
| ev_disconnect.

(** What the event loop runs next: an event of a socket, read at clock
    value [now], or the expiry of a close timer. *)
Inductive input : Type :=
| client (now : Z) (socket_id : string) (e : event)
| timeout (sessionId : string).

Definition step (st : server) (i : input) : result :=
  match i with
  | client now sock e =>
      match e with
      | ev_connection => (socket_connect sock st, [])
      | ev_create_session id => create_session now sock id st
      | ev_check_session id callback => check_session sock id callback st
      | ev_join_session id => join_session now sock id st
      | ev_leave_session id => leave_session sock id st
      | ev_close_session id => close_session sock id st
      | ev_audio_chunk chunk id => audio_chunk_handler sock chunk id st
      | ev_recording_started id => recording_started sock id st
      | ev_stop_recording id => stop_recording_handler sock id st
      | ev_disconnect => disconnect sock st
      end
  | timeout id => close_timeout id st
  end.

(** The inputs whose handler throws.  Nothing catches the exception, and
    Node ends the process: there is no state of the server after such an
    input. *)
Definition throws (i : input) : bool :=
  match i with
  | client _ _ (ev_check_session _ false) => true
  | _ => false
  end.

(** Events come from connected sockets, a connection from a socket id that
    is not connected, and a timer only fires if it is pending.  An input
    whose handler throws leads to no state. *)
Definition admissible (st : server) (i : input) : bool :=
  negb (throws i)
  && match i with
     | client _ sock ev_connection => negb (JsMap.has sock (sockets st))
     | client _ sock _ => JsMap.has sock (sockets st)
     | timeout id => existsb (String.eqb id) (timers st)
     end.

(** Running a sequence of inputs, collecting the emissions. *)
Fixpoint run (st : server) (l : list input) : result :=
  match l with
  | [] => (st, [])
  | i :: rest =>
      let r := step st i in
      let r' := run (fst r) rest in
      (fst r', snd r ++ snd r')
  end.

Definition exec (st : server) (l : list input) : server := fst (run st l).

Fixpoint admissible_run (st : server) (l : list input) : bool :=
  match l with
  | [] => true
  | i :: rest => admissible st i && admissible_run (fst (step st i)) rest
  end.

Inductive reachable : server -> Prop :=
| reach_init : reachable init
| reach_step st i :
    reachable st -> admissible st i = true -> reachable (fst (step st i)).

(** What the sockets receive from one step.  The rooms are those after the
    step: a handler calls [socket.join] before it emits anything, and a
    closing socket is out of its rooms before its handler runs. *)
Definition delivered (st : server) (i : input) : list (string * payload) :=
  let r := step st i in deliveries (fst r) (snd r).

(** ** What a departure does to one session *)

(** The session object after [socketId] has been taken out of it, or [None]
    when that leaves nobody. *)
Definition departed (socketId : string) (s : session) : option session :=
  match JsSet.delete socketId (participants s) with
  | [] => None
  | p :: ps =>
      Some (if String.eqb (host s) socketId
            then with_host p (with_participants (p :: ps) s)
            else with_participants (p :: ps) s)
  end.

Definition leaving_emits (socketId sessionId : string) (s : session)
  : list emission :=
  mkEmit (to_room sessionId) (participant_left socketId)
  :: match departed socketId s with
     | Some s' =>
         if String.eqb (host s) socketId
         then [mkEmit (to_room sessionId) (new_host (host s'))]
         else []
     | None => []
     end.


(** ** Properties of states *)

(** Every session object of the registry satisfies [P]. *)
Definition sessions_sat (P : session -> Prop) (st : server) : Prop :=
  forall id s, JsMap.get id (activeSessions st) = Some s -> P s.

(** The host of an active session is one of its members. *)
Definition host_is_member (s : session) : Prop :=
  active s = true -> In (host s) (participants s).

Definition host_invariant (st : server) : Prop := sessions_sat host_is_member st.

Definition has_members (s : session) : Prop := participants s <> [].

Definition no_empty_session (st : server) : Prop := sessions_sat has_members st.

(** What holds of every state the server can be in: keys are not repeated,
    the host of every session is a member, member sets have no repetition,
    and every member is a connected socket that is in the session's room. *)
Record well_formed (st : server) : Prop := mkWf {
  wf_keys : NoDup (JsMap.keys (activeSessions st));
  wf_sockets : NoDup (JsMap.keys (sockets st));
  wf_host : sessions_sat (fun s => In (host s) (participants s)) st;
  wf_nodup : sessions_sat (fun s => NoDup (participants s)) st;
  wf_rooms :
    forall id s p,
      JsMap.get id (activeSessions st) = Some s ->
      In p (participants s) -> in_room st id p = true
}.

(** How one step can change the object stored under one session id. *)
Inductive session_step : option session -> option session -> Prop :=
| ss_keep o : session_step o o
| ss_remove o : session_step o None
| ss_create o c now : session_step o (Some (new_session c now))
| ss_join s c :
    active s = true ->
    session_step (Some s)
      (Some (with_participants (JsSet.add c (participants s)) s))
| ss_leave s s' c : departed c s = Some s' -> session_step (Some s) (Some s')
| ss_close s : session_step (Some s) (Some (with_active false s)).

(** Several changes in a row. *)
Definition session_steps : option session -> option session -> Prop :=
  clos_refl_trans (option session) session_step.

(** Every connected socket is in the room named by its own id. *)
Definition own_rooms (st : server) : Prop :=
  forall c rooms, JsMap.get c (sockets st) = Some rooms -> In c rooms.

(** Every member of every session is in the room of the session. *)
Definition rooms_ok (st : server) : Prop :=
  forall id s p,
    JsMap.get id (activeSessions st) = Some s ->
    In p (participants s) -> in_room st id p = true.

(** ** The disconnect handler, entry by entry *)

(** The ids of the sessions whose member set contains [socket_id], in the
    order of the registry. *)
Definition member_sessions (socket_id : string) (st : server) : list string :=
  map fst
    (filter (fun e => JsSet.has socket_id (participants (snd e)))
            (activeSessions st)).

(** What becomes of one registry entry when [socket_id] goes away. *)
Definition leave_entry (socket_id : string) (e : string * session)
  : list (string * session) :=
  if JsSet.has socket_id (participants (snd e)) then
    match departed socket_id (snd e) with
    | Some s' => [(fst e, s')]
    | None => []
    end
  else [e].

Definition leave_entry_emits (socket_id : string) (e : string * session)
  : list emission :=
  if JsSet.has socket_id (participants (snd e))
  then leaving_emits socket_id (fst e) (snd e)
  else [].

(** A [leave-session] event of [socket_id] for each of the given ids. *)
Definition leave_events (now : Z) (socket_id : string) (ids : list string)
  : list input :=
  map (fun id => client now socket_id (ev_leave_session id)) ids.

(** ** Sample runs *)

(** Host H creates room1, then P1 and P2 join it. *)
Definition room1_run : list input :=
  [client 0 "H" ev_connection; client 1 "H" (ev_create_session "room1");
   client 2 "P1" ev_connection; client 3 "P1" (ev_join_session "room1");
   client 4 "P2" ev_connection; client 5 "P2" (ev_join_session "room1")].

Definition room1 : server := exec init room1_run.

(** Two connected sockets, no session yet. *)
Definition two_sockets : server :=
  exec init [client 0 "A" ev_connection; client 0 "B" ev_connection].

(** room1 after its host asked to close it. *)
Definition room1_closing : server :=
  fst (step room1 (client 6 "H" (ev_close_session "room1"))).

(** H alone in a session of its own. *)
Definition solo : server :=
  exec init [client 0 "H" ev_connection; client 1 "H" (ev_create_session "solo")].

(** A session with the empty string as id, created by A; B is connected
    and in no session. *)
Definition empty_id_room : server :=
  exec init [client 0 "A" ev_connection; client 1 "A" (ev_create_session "");
             client 2 "B" ev_connection].

(** room1 after P1 sent leave-session for it. *)
Definition room1_after_leave : server :=
  fst (step room1 (client 6 "P1" (ev_leave_session "room1"))).

(** A and B both in the session whose id is the empty string. *)
Definition empty_id_pair : server :=
  fst (step empty_id_room (client 3 "B" (ev_join_session ""))).

(** H creates room1, closes it and leaves; the entry is gone.  Before the
    timer of the close fires, G creates room1 again. *)
Definition reuse_run : list input :=
  [client 0 "H" ev_connection; client 1 "H" (ev_create_session "room1");
   client 2 "H" (ev_close_session "room1");
   client 3 "H" (ev_leave_session "room1");
   client 4 "G" ev_connection; client 5 "G" (ev_create_session "room1")].

Definition reused : server := exec init reuse_run.

(** A hosts a session whose id is A's own socket id, and B has joined
    it. *)
Definition own_id_room : server :=
  exec init [client 0 "A" ev_connection; client 1 "A" (ev_create_session "A");
             client 2 "B" ev_connection; client 3 "B" (ev_join_session "A")].

(** A alone in the session whose id is the empty string. *)
Definition empty_id_solo : server :=
  exec init [client 0 "A" ev_connection; client 1 "A" (ev_create_session "")].

(** ** Which input changes a session, and how *)

(** The session id an event of a socket carries, if any. *)
Definition event_session_id (e : event) : option string :=
  match e with
  | ev_create_session id | ev_check_session id _ | ev_join_session id
  | ev_leave_session id | ev_close_session id | ev_audio_chunk _ id
  | ev_recording_started id | ev_stop_recording id => Some id
  | ev_connection | ev_disconnect => None
  end.

(** [session_change id i o o']: input [i] may turn the object stored under
    [id] from [o] into [o']. *)
Inductive session_change (id : string)
  : input -> option session -> option session -> Prop :=
| sc_keep i o : session_change id i o o
| sc_remove i o : session_change id i o None
| sc_create now c o :
    session_change id (client now c (ev_create_session id)) o
      (Some (new_session c now))
| sc_create_on_join now c :
    session_change id (client now c (ev_join_session id)) None
      (Some (new_session c now))
| sc_join now c s :
    active s = true ->
    session_change id (client now c (ev_join_session id)) (Some s)
      (Some (with_participants (JsSet.add c (participants s)) s))
| sc_leave now c s s' :
    departed c s = Some s' ->
    session_change id (client now c (ev_leave_session id)) (Some s) (Some s')
| sc_disconnect now c s s' :
    departed c s = Some s' -> In c (participants s) ->
    session_change id (client now c ev_disconnect) (Some s) (Some s')
| sc_close now s :
    session_change id (client now (host s) (ev_close_session id)) (Some s)
      (Some (with_active false s)).

(** A session that is marked inactive has a removal timer pending. *)
Definition closing_has_timer (st : server) : Prop :=
  forall id s,
    JsMap.get id (activeSessions st) = Some s ->
    active s = false -> In id (timers st).

(** ** HTTP endpoints of server.cjs *)

(** One element of the array sent by [GET /sessions]. *)
Record session_summary : Type := mkSummary {
  sum_id : string;
  sum_participants : nat;
  sum_host : string;
  sum_active : bool;
  sum_createdAt : Z
}.

(** [app.get('/sessions', ...)] *)
Definition sessions_endpoint (st : server) : list session_summary :=
  map (fun e =>
         mkSummary (fst e) (JsSet.size (participants (snd e)))
                   (host (snd e)) (active (snd e)) (createdAt (snd e)))
      (activeSessions st).

(** The two shapes of the object sent by [GET /sessions/:id]. *)
Inductive session_answer : Type :=
| answer_exists (id : string) (participants : nat) (active : bool)
| answer_missing.

(** [app.get('/sessions/:id', ...)] *)
Definition session_endpoint (sessionId : string) (st : server)
  : session_answer :=
  match JsMap.get sessionId (activeSessions st) with
  | Some s =>
      if active s
      then answer_exists sessionId (JsSet.size (participants s)) true
      else answer_missing
  | None => answer_missing
  end.

(** ** lib/audioUtils.ts *)

Module AudioUtils.
Section Browser.
(** [MediaRecorder.isTypeSupported], which the browser provides. *)
Variable isTypeSupported : string -> bool.

Definition isFormatSupported (mimeType : string) : bool :=
  isTypeSupported mimeType.

(** The [for (const format of formats)] loop of [getBestSupportedFormat],
    with its early [return]. *)
Fixpoint first_supported (formats : list string) : string :=
  match formats with
  | [] => ""
  | format :: rest =>
      if isFormatSupported format then format else first_supported rest
  end.

Definition formats : list string :=
  ["audio/mp3"; "audio/mpeg"; "audio/ogg"; "audio/webm"].

Definition getBestSupportedFormat : string := first_supported formats.
End Browser.

Definition getFileExtension (mimeType : string) : string :=
  if String.eqb mimeType "audio/mp3" || String.eqb mimeType "audio/mpeg"
  then "mp3"
  else if String.eqb mimeType "audio/ogg" then "ogg"
  else if String.eqb mimeType "audio/webm" then "webm"
  else "audio".
End AudioUtils.

(** ** pages/RecordingPage.tsx: the parts without browser effects *)

Module RecordingPage.
(** [String.prototype.includes]. *)
Fixpoint includes (searchString s : string) : bool :=
  String.prefix searchString s
  || match s with
     | EmptyString => false
     | String _ rest => includes searchString rest
     end.

(** The [audioFormat] state after the first effect has run: it starts as
    audio/webm and is replaced by the best supported format when there is
    one. *)
Definition audioFormat (isTypeSupported : string -> bool) : string :=
  let bestFormat := AudioUtils.getBestSupportedFormat isTypeSupported in
  if truthy bestFormat then bestFormat else "audio/webm".

(** [mediaRecorderRef.current?.mimeType || audioFormat || 'audio/webm'];
    [None] stands for a recorder that is not there. *)
Definition currentMimeType (recorderMimeType : option string)
    (audioFormat : string) : string :=
  match recorderMimeType with
  | Some m =>
      if truthy m then m
      else if truthy audioFormat then audioFormat else "audio/webm"
  | None => if truthy audioFormat then audioFormat else "audio/webm"
  end.

(** The extension chosen in [saveRecording]. *)
Definition fileExtension (currentMimeType : string) : string :=
  if includes "mp3" currentMimeType || includes "mpeg" currentMimeType
  then "mp3"
  else if includes "ogg" currentMimeType then "ogg"
  else if includes "webm" currentMimeType then "webm"
  else "webm".

(** The update of the [participants] state on ['participant-joined']. *)
Definition on_participant_joined (participantId : string)
    (prev : list string) : list string :=
  if existsb (String.eqb participantId) prev then prev
  else prev ++ [participantId].

(** The update of the [participants] state on ['participant-left']. *)
Definition on_participant_left (participantId : string)
    (prev : list string) : list string :=
  filter (fun id => negb (String.eqb id participantId)) prev.

(** What a message of the server does to the [participants] state of the
    page: the three handlers that call [setParticipants]. *)
Definition receive (m : payload) (prev : list string) : list string :=
  match m with
  | participant_joined id => on_participant_joined id prev
  | participant_left id => on_participant_left id prev
  | participants_list ids => ids
  | _ => prev
  end.
End RecordingPage.

(** ** The first version of the server (server.js) *)

Module ServerJs.
(** Its session objects have two fields only. *)
Record session : Type := mkSession {
  host : string;
  participants : JsSet.t
}.

Record server : Type := mkServer {
  activeSessions : JsMap.t session;
  sockets : JsMap.t JsSet.t
}.

Definition result : Type := server * list emission.

Definition socket_join (socket_id room : string) (st : server) : server :=
  match JsMap.get socket_id (sockets st) with
  | Some rooms =>
      mkServer (activeSessions st)
               (JsMap.set socket_id (JsSet.add room rooms) (sockets st))
  | None => st
  end.

(** [socket.on('create-session', ...)] *)
Definition create_session (socket_id sessionId : string) (st : server)
  : result :=
  (socket_join socket_id sessionId
     (mkServer (JsMap.set sessionId (mkSession socket_id [socket_id])
                  (activeSessions st))
               (sockets st)),
   []).

(** [socket.on('join-session', ...)] *)
Definition join_session (socket_id sessionId : string) (st : server)
  : result :=
  match JsMap.get sessionId (activeSessions st) with
  | Some s =>
      let st1 := socket_join socket_id sessionId st in
      let s' := mkSession (host s) (JsSet.add socket_id (participants s)) in
      (mkServer (JsMap.set sessionId s' (activeSessions st1)) (sockets st1),
       [mkEmit (to_room_except sessionId socket_id)
          (participant_joined socket_id);
        mkEmit (to_socket socket_id)
          (participants_list
             (filter (fun id => negb (String.eqb id socket_id))
                     (participants s')))])
  | None =>
      (socket_join socket_id sessionId
         (mkServer (JsMap.set sessionId (mkSession socket_id [socket_id])
                      (activeSessions st))
                   (sockets st)),
       [])
  end.

(** [socket.on('audio-chunk', ...)] *)
Definition audio_chunk_handler (socket_id : string)
    (audioChunk : list Byte.byte) (sessionId : string) (st : server)
  : result :=
  if truthy sessionId && JsMap.has sessionId (activeSessions st) then
    (st, [mkEmit (to_room_except sessionId socket_id)
            (audio_chunk audioChunk)])
  else (st, []).

(** One turn of the [activeSessions.forEach] callback of the disconnect
    handler. *)
Definition disconnect_visit (socket_id : string) (acc : result)
    (sessionId : string) : result :=
  match JsMap.get sessionId (activeSessions (fst acc)) with
  | Some s =>
      if JsSet.has socket_id (participants s) then
        let ps := JsSet.delete socket_id (participants s) in
        let left := mkEmit (to_room sessionId) (participant_left socket_id) in
        match ps with
        | [] =>
            (mkServer (JsMap.delete sessionId (activeSessions (fst acc)))
                      (sockets (fst acc)),
             snd acc ++ [left])
        | newHost :: _ =>
            if String.eqb (host s) socket_id && (0 <? JsSet.size ps)%nat then
              (mkServer (JsMap.set sessionId (mkSession newHost ps)
                           (activeSessions (fst acc)))
                        (sockets (fst acc)),
               snd acc ++ [left])
            else
              (mkServer (JsMap.set sessionId (mkSession (host s) ps)
                           (activeSessions (fst acc)))
                        (sockets (fst acc)),
               snd acc ++ [left])
        end
      else acc
  | None => acc
  end.

(** [socket.on('disconnect', ...)] *)
Definition disconnect (socket_id : string) (st : server) : result :=
  let st1 := mkServer (activeSessions st)
                      (JsMap.delete socket_id (sockets st)) in
  fold_left (disconnect_visit socket_id)
            (JsMap.keys (activeSessions st1)) (st1, []).
End ServerJs.

(** What the first version keeps of a session object and of a state of
    the present server. *)
Definition forget_session (s : session) : ServerJs.session :=
  ServerJs.mkSession (host s) (participants s).

Definition forget (st : server) : ServerJs.server :=
  ServerJs.mkServer
    (map (fun e => (fst e, forget_session (snd e))) (activeSessions st))
    (sockets st).

(** The emissions other than [connection-successful]. *)
Definition without_connection_successful (out : list emission)
  : list emission :=
  filter (fun e => match msg e with
                   | connection_successful _ _ _ _ => false
                   | _ => true
                   end) out.

(** The emissions other than [new-host]. *)
Definition without_new_host (out : list emission) : list emission :=
  filter (fun e => match msg e with new_host _ => false | _ => true end) out.

(** ** Facts about the containers *)

Section JsSetFacts.
Implicit Types (x y : string) (s : JsSet.t).

Lemma has_In x s : JsSet.has x s = true <-> In x s.
Proof.
  unfold JsSet.has. rewrite existsb_exists. split.
  - intros [y [Hy He]]. apply String.eqb_eq in He. now subst.
  - intros H. exists x. split; [assumption | apply String.eqb_refl].
Qed.

Lemma has_false x s : JsSet.has x s = false <-> ~ In x s.
Proof.
  rewrite <- has_In. destruct (JsSet.has x s); split; congruence.
Qed.

Lemma In_delete x y s : In y (JsSet.delete x s) <-> In y s /\ y <> x.
Proof.
  unfold JsSet.delete. rewrite filter_In, negb_true_iff, String.eqb_neq.
  split; intros [H1 H2]; split; auto.
Qed.

Lemma delete_absent x s : ~ In x s -> JsSet.delete x s = s.
Proof.
  induction s as [|y s IH]; simpl; intros H; [reflexivity|].
  destruct (String.eqb_spec x y) as [->|Hn]; simpl.
  - exfalso. apply H. now left.
  - f_equal. apply IH. intros Hx. apply H. now right.
Qed.

Lemma NoDup_delete x s : NoDup s -> NoDup (JsSet.delete x s).
Proof. apply NoDup_filter. Qed.

Lemma In_add x y s : In y (JsSet.add x s) <-> In y s \/ y = x.
Proof.
  unfold JsSet.add. destruct (JsSet.has x s) eqn:E.
  - apply has_In in E. split; [auto | intros [H| ->]; assumption].
  - rewrite in_app_iff. simpl. intuition.
Qed.

Lemma NoDup_add x s : NoDup s -> NoDup (JsSet.add x s).
Proof.
  unfold JsSet.add. intros H. destruct (JsSet.has x s) eqn:E; [assumption|].
  apply has_false in E. apply NoDup_app; [assumption | repeat constructor; simpl; tauto |].
  intros a Ha [<-|[]]. contradiction.
Qed.
End JsSetFacts.

Section JsMapFacts.
Context {V : Type}.
Implicit Types (k : string) (v : V) (m : JsMap.t V).

Lemma get_set_eq k v m : JsMap.get k (JsMap.set k v m) = Some v.
Proof.
  induction m as [|[k' v'] m IH]; simpl.
  - now rewrite String.eqb_refl.
  - destruct (String.eqb_spec k k') as [->|Hn]; simpl.
    + now rewrite String.eqb_refl.
    + destruct (String.eqb_spec k k'); [contradiction | assumption].
Qed.

Lemma get_set_neq k k' v m :
  k <> k' -> JsMap.get k' (JsMap.set k v m) = JsMap.get k' m.
Proof.
  intros Hn. induction m as [|[k0 v0] m IH]; simpl.
  - destruct (String.eqb_spec k' k); [now subst | reflexivity].
  - destruct (String.eqb_spec k k0) as [->|Hk]; simpl.
    + destruct (String.eqb_spec k' k0); [now subst | reflexivity].
    + now rewrite IH.
Qed.

Lemma get_delete_eq k m : JsMap.get k (JsMap.delete k m) = None.
Proof.
  induction m as [|[k' v'] m IH]; simpl; [reflexivity|].
  destruct (String.eqb_spec k k') as [->|Hn]; simpl; [assumption|].
  destruct (String.eqb_spec k k'); [contradiction | assumption].
Qed.

Lemma get_delete_neq k k' m :
  k <> k' -> JsMap.get k' (JsMap.delete k m) = JsMap.get k' m.
Proof.
  intros Hn. induction m as [|[k0 v0] m IH]; simpl; [reflexivity|].
  destruct (String.eqb_spec k k0) as [->|Hk]; simpl.
  - destruct (String.eqb_spec k' k0); [now subst | assumption].
  - now rewrite IH.
Qed.

Lemma get_None_keys k m : JsMap.get k m = None <-> ~ In k (JsMap.keys m).
Proof.
  induction m as [|[k' v'] m IH]; simpl; [tauto|].
  destruct (String.eqb_spec k k') as [->|Hn].
  - split; [discriminate | intros H; exfalso; apply H; now left].
  - rewrite IH. split; intros H; [intros [E|E]; [now subst | auto] | tauto].
Qed.

Lemma get_Some_In k v m : JsMap.get k m = Some v -> In (k, v) m.
Proof.
  induction m as [|[k' v'] m IH]; simpl; [discriminate|].
  destruct (String.eqb_spec k k') as [->|Hn].
  - intros [= ->]. now left.
  - intros H. right. now apply IH.
Qed.

Lemma In_get k v m : NoDup (JsMap.keys m) -> In (k, v) m -> JsMap.get k m = Some v.
Proof.
  induction m as [|[k' v'] m IH]; simpl; [tauto|].
  intros Hnd [[= -> ->]|Hin].
  - now rewrite String.eqb_refl.
  - inversion Hnd as [|? ? Hk Hm]; subst.
    destruct (String.eqb_spec k k') as [->|Hn]; [|now apply IH].
    exfalso. apply Hk. change k' with (fst (k', v)). now apply in_map.
Qed.

Lemma has_true k m : JsMap.has k m = true <-> exists v, JsMap.get k m = Some v.
Proof.
  unfold JsMap.has. destruct (JsMap.get k m) as [v|].
  - split; [eauto | reflexivity].
  - split; [discriminate | intros [v [=]]].
Qed.

Lemma set_same k v m : JsMap.get k m = Some v -> JsMap.set k v m = m.
Proof.
  induction m as [|[k' v'] m IH]; simpl; [discriminate|].
  destruct (String.eqb_spec k k') as [->|Hn].
  - now intros [= ->].
  - intros H. now rewrite IH.
Qed.

Lemma keys_set_present k v m :
  In k (JsMap.keys m) -> JsMap.keys (JsMap.set k v m) = JsMap.keys m.
Proof.
  induction m as [|[k' v'] m IH]; simpl; [tauto|].
  destruct (String.eqb_spec k k') as [->|Hn]; [reflexivity|].
  intros [E|Hin]; [now subst | simpl; now rewrite IH].
Qed.

Lemma keys_set_absent k v m :
  ~ In k (JsMap.keys m) -> JsMap.keys (JsMap.set k v m) = JsMap.keys m ++ [k].
Proof.
  induction m as [|[k' v'] m IH]; simpl; [reflexivity|].
  intros H. destruct (String.eqb_spec k k') as [->|Hn]; [tauto|].
  simpl. rewrite IH; tauto.
Qed.

Lemma In_keys_set k k' v m :
  In k' (JsMap.keys (JsMap.set k v m)) <-> k' = k \/ In k' (JsMap.keys m).
Proof.
  destruct (in_dec string_dec k (JsMap.keys m)) as [Hin|Hout].
  - rewrite keys_set_present by assumption. split; [auto | intros [->|H]; assumption].
  - rewrite keys_set_absent by assumption. rewrite in_app_iff. simpl.
    split; [intros [H|[<-|[]]]; auto | intros [->|H]; auto].
Qed.

Lemma NoDup_keys_set k v m :
  NoDup (JsMap.keys m) -> NoDup (JsMap.keys (JsMap.set k v m)).
Proof.
  intros H. destruct (in_dec string_dec k (JsMap.keys m)) as [Hin|Hout].
  - now rewrite keys_set_present.
  - rewrite keys_set_absent by assumption.
    apply NoDup_app; [assumption | repeat constructor; simpl; tauto |].
    intros a Ha [<-|[]]. contradiction.
Qed.

Lemma keys_delete k m :
  JsMap.keys (JsMap.delete k m)
  = filter (fun k' => negb (String.eqb k k')) (JsMap.keys m).
Proof.
  induction m as [|[k' v'] m IH]; simpl; [reflexivity|].
  destruct (String.eqb k k'); simpl; now rewrite IH.
Qed.

Lemma NoDup_keys_delete k m :
  NoDup (JsMap.keys m) -> NoDup (JsMap.keys (JsMap.delete k m)).
Proof. rewrite keys_delete. apply NoDup_filter. Qed.

Lemma delete_absent_key k m :
  ~ In k (JsMap.keys m) -> JsMap.delete k m = m.
Proof.
  induction m as [|[k' v'] m IH]; simpl; [reflexivity|].
  intros H. destruct (String.eqb_spec k k') as [->|Hn]; [tauto|].
  simpl. rewrite IH; tauto.
Qed.

(** Exactly one entry of a map without repeated keys carries a given
    present key. *)
Lemma count_key k v m :
  NoDup (JsMap.keys m) -> JsMap.get k m = Some v ->
  List.length (filter (fun e => String.eqb k (fst e)) m) = 1%nat.
Proof.
  induction m as [|[k' v'] m IH]; simpl; [discriminate|].
  intros Hnd Hg. inversion Hnd as [|? ? Hk Hm]; subst.
  destruct (String.eqb_spec k k') as [->|Hn]; simpl.
  - f_equal. rewrite (filter_ext_in _ (fun _ => false)).
    + now rewrite filter_false.
    + intros [k0 v0] Hin. simpl.
      destruct (String.eqb_spec k' k0) as [->|]; [|reflexivity].
      exfalso. apply Hk. change k0 with (fst (k0, v0)). now apply in_map.
  - now apply IH.
Qed.
End JsMapFacts.

Lemma handleParticipantLeaving_absent c id st :
  JsMap.get id (activeSessions st) = None ->
  handleParticipantLeaving c id st = (st, []).
Proof. unfold handleParticipantLeaving. now intros ->. Qed.

Lemma handleParticipantLeaving_present c id st s :
  JsMap.get id (activeSessions st) = Some s ->
  handleParticipantLeaving c id st
  = (with_sessions
       match departed c s with
       | Some s' => JsMap.set id s' (activeSessions st)
       | None => JsMap.delete id (activeSessions st)
       end st,
     leaving_emits c id s).
Proof.
  unfold handleParticipantLeaving, leaving_emits, departed. intros ->.
  destruct (JsSet.delete c (participants s)) as [|p ps]; [reflexivity|].
  simpl. destruct (String.eqb (host s) c); reflexivity.
Qed.

Lemma handleParticipantLeaving_frame c id st :
  sockets (fst (handleParticipantLeaving c id st)) = sockets st
  /\ timers (fst (handleParticipantLeaving c id st)) = timers st.
Proof.
  destruct (JsMap.get id (activeSessions st)) as [s|] eqn:E.
  - rewrite (handleParticipantLeaving_present _ _ _ _ E). now split.
  - rewrite (handleParticipantLeaving_absent _ _ _ E). now split.
Qed.

Lemma handleParticipantLeaving_get c id st id' :
  JsMap.get id' (activeSessions (fst (handleParticipantLeaving c id st)))
  = if String.eqb id id'
    then match JsMap.get id (activeSessions st) with
         | Some s => departed c s
         | None => None
         end
    else JsMap.get id' (activeSessions st).
Proof.
  destruct (JsMap.get id (activeSessions st)) as [s|] eqn:E.
  - rewrite (handleParticipantLeaving_present _ _ _ _ E). simpl.
    destruct (String.eqb_spec id id') as [<-|Hn].
    + destruct (departed c s); [apply get_set_eq | apply get_delete_eq].
    + destruct (departed c s); [now apply get_set_neq | now apply get_delete_neq].
  - rewrite (handleParticipantLeaving_absent _ _ _ E). simpl.
    destruct (String.eqb_spec id id') as [<-|Hn]; [assumption | reflexivity].
Qed.

Lemma departed_participants c s s' :
  departed c s = Some s' ->
  participants s' = JsSet.delete c (participants s)
  /\ active s' = active s /\ createdAt s' = createdAt s
  /\ host s' = (if String.eqb (host s) c then hd c (participants s') else host s).
Proof.
  unfold departed. destruct (JsSet.delete c (participants s)) as [|p ps]; [discriminate|].
  intros [= <-]. destruct (String.eqb (host s) c); simpl; auto.
Qed.

Lemma departed_None c s :
  departed c s = None <-> JsSet.delete c (participants s) = [].
Proof.
  unfold departed. destruct (JsSet.delete c (participants s)); split; congruence.
Qed.

(** A departure of somebody who is not the host and not a member leaves
    the object as it is. *)
Lemma departed_stranger c s :
  ~ In c (participants s) -> participants s <> [] -> host s <> c ->
  departed c s = Some s.
Proof.
  intros Hc Hne Hh. unfold departed. rewrite (delete_absent _ _ Hc).
  destruct (participants s) as [|p ps] eqn:E; [contradiction|].
  destruct (String.eqb_spec (host s) c); [contradiction|].
  destruct s; simpl in *; now subst.
Qed.

(** ** Room bookkeeping does not touch the registry *)

Lemma socket_join_sessions a r st :
  activeSessions (socket_join a r st) = activeSessions st.
Proof. unfold socket_join. now destruct (JsMap.get a (sockets st)). Qed.

Lemma socket_join_timers a r st : timers (socket_join a r st) = timers st.
Proof. unfold socket_join. now destruct (JsMap.get a (sockets st)). Qed.

Lemma check_session_state c k ack st : fst (check_session c k ack st) = st.
Proof. now destruct ack. Qed.

(** ** One step, seen from one session id *)

Ltac case_id a b :=
  destruct (String.eqb_spec a b) as [<-|?];
  [ rewrite ?get_set_eq, ?get_delete_eq
  | rewrite ?get_set_neq, ?get_delete_neq by assumption ].

Lemma handleParticipantLeaving_step c k st id :
  session_step
    (JsMap.get id (activeSessions st))
    (JsMap.get id (activeSessions (fst (handleParticipantLeaving c k st)))).
Proof.
  rewrite handleParticipantLeaving_get.
  destruct (String.eqb_spec k id) as [<-|Hn]; [|constructor].
  destruct (JsMap.get k (activeSessions st)) as [s|]; [|constructor].
  destruct (departed c s) eqn:E; [now apply ss_leave with c | constructor].
Qed.

Lemma disconnect_visit_step c acc k id :
  session_step
    (JsMap.get id (activeSessions (fst acc)))
    (JsMap.get id (activeSessions (fst (disconnect_visit c acc k)))).
Proof.
  unfold disconnect_visit.
  destruct (JsMap.get k (activeSessions (fst acc))) as [s|]; [|constructor].
  destruct (JsSet.has c (participants s)); [|constructor].
  apply handleParticipantLeaving_step.
Qed.

Lemma disconnect_fold_steps c id l acc :
  session_steps
    (JsMap.get id (activeSessions (fst acc)))
    (JsMap.get id
       (activeSessions (fst (fold_left (disconnect_visit c) l acc)))).
Proof.
  revert acc. induction l as [|k l IH]; intros acc; simpl.
  - apply rt_refl.
  - eapply rt_trans; [apply rt_step, disconnect_visit_step | apply IH].
Qed.

Lemma step_session st i id :
  session_steps
    (JsMap.get id (activeSessions st))
    (JsMap.get id (activeSessions (fst (step st i)))).
Proof.
  destruct i as [now sock e | k]; [destruct e as [|k|k ack|k|k|k|chunk k|k|k|] |];
    simpl; rewrite ?check_session_state.
  - apply rt_refl.
  - unfold create_session. simpl. rewrite socket_join_sessions. simpl.
    apply rt_step. case_id k id; constructor.
  - apply rt_refl.
  - unfold join_session.
    destruct (JsMap.get k (activeSessions st)) as [s|] eqn:E.
    + destruct (active s) eqn:Ea; simpl; [|apply rt_refl].
      rewrite socket_join_sessions. apply rt_step.
      case_id k id; [rewrite E; now constructor | constructor].
    + simpl. rewrite socket_join_sessions. simpl.
      apply rt_step. case_id k id; constructor.
  - unfold leave_session.
    destruct (truthy k && JsMap.has k (activeSessions st)); [|apply rt_refl].
    apply rt_step, handleParticipantLeaving_step.
  - unfold close_session.
    destruct (truthy k); [|apply rt_refl].
    destruct (JsMap.get k (activeSessions st)) as [s|] eqn:E; [|apply rt_refl].
    destruct (String.eqb (host s) sock); simpl; [|apply rt_refl].
    apply rt_step. case_id k id; [rewrite E|]; constructor.
  - unfold audio_chunk_handler.
    destruct (_ || _); apply rt_refl.
  - unfold recording_started. destruct (_ && _); apply rt_refl.
  - unfold stop_recording_handler. destruct (_ && _); apply rt_refl.
  - unfold disconnect.
    apply (disconnect_fold_steps sock id _ (socket_close sock st, [])).
  - unfold close_timeout. simpl.
    destruct (JsMap.has k (activeSessions st)); simpl; [|apply rt_refl].
    apply rt_step. case_id k id; constructor.
Qed.

(** A property of session objects that every kind of change respects holds
    in the state after a step if it held before. *)
Lemma sessions_sat_step (P : session -> Prop) :
  (forall c now, P (new_session c now)) ->
  (forall s c, active s = true -> P s ->
     P (with_participants (JsSet.add c (participants s)) s)) ->
  (forall s s' c, departed c s = Some s' -> P s -> P s') ->
  (forall s, P s -> P (with_active false s)) ->
  forall st i, sessions_sat P st -> sessions_sat P (fst (step st i)).
Proof.
  intros Hnew Hjoin Hleave Hclose st i Hst id.
  assert (Hgen : forall o o', session_steps o o' ->
            (forall s, o = Some s -> P s) -> forall s, o' = Some s -> P s).
  { induction 1 as [o o' H1| |]; auto.
    destruct H1; intros Ho t Ht; try discriminate;
      try (injection Ht as <-); eauto. }
  intros s. apply (Hgen _ _ (step_session st i id)). intros s0. apply Hst.
Qed.

(** ** Keys stay distinct *)

Lemma handleParticipantLeaving_keys c k st :
  NoDup (JsMap.keys (activeSessions st)) ->
  NoDup (JsMap.keys (activeSessions (fst (handleParticipantLeaving c k st)))).
Proof.
  intros H. destruct (JsMap.get k (activeSessions st)) as [s|] eqn:E.
  - rewrite (handleParticipantLeaving_present _ _ _ _ E). simpl.
    destruct (departed c s);
      [now apply NoDup_keys_set | now apply NoDup_keys_delete].
  - now rewrite (handleParticipantLeaving_absent _ _ _ E).
Qed.

Lemma disconnect_fold_keys c l acc :
  NoDup (JsMap.keys (activeSessions (fst acc))) ->
  NoDup (JsMap.keys
           (activeSessions (fst (fold_left (disconnect_visit c) l acc)))).
Proof.
  revert acc. induction l as [|k l IH]; intros acc H; simpl; [assumption|].
  apply IH. unfold disconnect_visit.
  destruct (JsMap.get k (activeSessions (fst acc))) as [s|]; [|assumption].
  destruct (JsSet.has c (participants s)); [|assumption].
  now apply handleParticipantLeaving_keys.
Qed.

Lemma disconnect_fold_frame c l acc :
  sockets (fst (fold_left (disconnect_visit c) l acc)) = sockets (fst acc)
  /\ timers (fst (fold_left (disconnect_visit c) l acc)) = timers (fst acc).
Proof.
  revert acc. induction l as [|k l IH]; intros acc; simpl; [now split|].
  destruct (IH (disconnect_visit c acc k)) as [-> ->].
  unfold disconnect_visit.
  destruct (JsMap.get k (activeSessions (fst acc))) as [s|]; [|now split].
  destruct (JsSet.has c (participants s)); [|now split].
  apply handleParticipantLeaving_frame.
Qed.

Lemma step_keys st i :
  NoDup (JsMap.keys (activeSessions st)) ->
  NoDup (JsMap.keys (activeSessions (fst (step st i)))).
Proof.
  intros H.
  destruct i as [now sock e | k]; [destruct e as [|k|k ack|k|k|k|chunk k|k|k|] |];
    simpl; rewrite ?check_session_state; try assumption.
  - unfold create_session. simpl. rewrite socket_join_sessions. simpl.
    now apply NoDup_keys_set.
  - unfold join_session.
    destruct (JsMap.get k (activeSessions st)) as [s|].
    + destruct (active s); simpl; [|assumption].
      rewrite socket_join_sessions. now apply NoDup_keys_set.
    + simpl. rewrite socket_join_sessions. simpl. now apply NoDup_keys_set.
  - unfold leave_session.
    destruct (truthy k && JsMap.has k (activeSessions st)); [|assumption].
    now apply handleParticipantLeaving_keys.
  - unfold close_session.
    destruct (truthy k); [|assumption].
    destruct (JsMap.get k (activeSessions st)) as [s|]; [|assumption].
    destruct (String.eqb (host s) sock); simpl; [|assumption].
    now apply NoDup_keys_set.
  - unfold audio_chunk_handler. now destruct (_ || _).
  - unfold recording_started. now destruct (_ && _).
  - unfold stop_recording_handler. now destruct (_ && _).
  - unfold disconnect. now apply disconnect_fold_keys.
  - unfold close_timeout. simpl.
    destruct (JsMap.has k (activeSessions st)); simpl; [|assumption].
    now apply NoDup_keys_delete.
Qed.

Lemma exec_keys st l :
  NoDup (JsMap.keys (activeSessions st)) ->
  NoDup (JsMap.keys (activeSessions (exec st l))).
Proof.
  revert st. induction l as [|i l IH]; intros st H; [exact H|].
  unfold exec in *. simpl. apply IH. now apply step_keys.
Qed.

Lemma socket_join_keys a r st :
  NoDup (JsMap.keys (sockets st)) ->
  NoDup (JsMap.keys (sockets (socket_join a r st))).
Proof.
  unfold socket_join. intros H.
  destruct (JsMap.get a (sockets st)); simpl; [now apply NoDup_keys_set | assumption].
Qed.

Lemma step_socket_keys st i :
  NoDup (JsMap.keys (sockets st)) ->
  NoDup (JsMap.keys (sockets (fst (step st i)))).
Proof.
  intros H.
  destruct i as [now sock e | k]; [destruct e as [|k|k ack|k|k|k|chunk k|k|k|] |];
    simpl; rewrite ?check_session_state; try assumption.
  - now apply NoDup_keys_set.
  - unfold create_session. simpl. now apply socket_join_keys.
  - unfold join_session.
    destruct (JsMap.get k (activeSessions st)) as [s|].
    + destruct (active s); simpl; [|assumption]. now apply socket_join_keys.
    + simpl. now apply socket_join_keys.
  - unfold leave_session.
    destruct (truthy k && JsMap.has k (activeSessions st)); [|assumption].
    now rewrite (proj1 (handleParticipantLeaving_frame _ _ _)).
  - unfold close_session.
    destruct (truthy k); [|assumption].
    destruct (JsMap.get k (activeSessions st)) as [s|]; [|assumption].
    now destruct (String.eqb (host s) sock).
  - unfold audio_chunk_handler. now destruct (_ || _).
  - unfold recording_started. now destruct (_ && _).
  - unfold stop_recording_handler. now destruct (_ && _).
  - unfold disconnect. rewrite (proj1 (disconnect_fold_frame _ _ _)). simpl.
    now apply NoDup_keys_delete.
  - unfold close_timeout. simpl.
    now destruct (JsMap.has k (activeSessions st)).
Qed.

(** ** The per-session invariants *)

Lemma departed_host_member c s s' :
  departed c s = Some s' ->
  In (host s) (participants s) -> In (host s') (participants s').
Proof.
  unfold departed.
  destruct (JsSet.delete c (participants s)) as [|p ps] eqn:E; [discriminate|].
  intros [= <-] Hh. destruct (String.eqb_spec (host s) c) as [He|Hn]; simpl.
  - now left.
  - assert (Hin : In (host s) (JsSet.delete c (participants s)))
      by (apply In_delete; now split).
    rewrite E in Hin. exact Hin.
Qed.

Lemma departed_active c s s' : departed c s = Some s' -> active s' = active s.
Proof. intros H. now apply departed_participants in H. Qed.

Lemma departed_has_members c s s' : departed c s = Some s' -> has_members s'.
Proof.
  unfold departed, has_members.
  destruct (JsSet.delete c (participants s)) as [|p ps]; [discriminate|].
  intros [= <-]. destruct (String.eqb (host s) c); simpl; discriminate.
Qed.

Lemma add_has_members c ps : JsSet.add c ps <> [].
Proof.
  unfold JsSet.add. destruct (JsSet.has c ps) eqn:E.
  - apply has_In in E. now destruct ps.
  - now destruct ps.
Qed.

Lemma host_invariant_step st i :
  host_invariant st -> host_invariant (fst (step st i)).
Proof.
  apply sessions_sat_step; unfold host_is_member; simpl.
  - intros c _ _. now left.
  - intros s c Ha H _. apply In_add. left. now apply H.
  - intros s s' c Hd H Ha. apply (departed_host_member _ _ _ Hd).
    apply H. now rewrite <- (departed_active _ _ _ Hd).
  - discriminate.
Qed.

Lemma no_empty_session_step st i :
  no_empty_session st -> no_empty_session (fst (step st i)).
Proof.
  apply sessions_sat_step; unfold has_members; simpl.
  - discriminate.
  - intros s c _ _. apply add_has_members.
  - intros s s' c Hd _. apply (departed_has_members _ _ _ Hd).
  - auto.
Qed.

Lemma host_member_step st i :
  sessions_sat (fun s => In (host s) (participants s)) st ->
  sessions_sat (fun s => In (host s) (participants s)) (fst (step st i)).
Proof.
  apply sessions_sat_step; simpl.
  - intros c _. now left.
  - intros s c _ H. apply In_add. now left.
  - intros s s' c Hd H. apply (departed_host_member _ _ _ Hd H).
  - auto.
Qed.

Lemma members_nodup_step st i :
  sessions_sat (fun s => NoDup (participants s)) st ->
  sessions_sat (fun s => NoDup (participants s)) (fst (step st i)).
Proof.
  apply sessions_sat_step; simpl.
  - intros c _. repeat constructor. simpl. tauto.
  - intros s c _ H. now apply NoDup_add.
  - intros s s' c Hd H.
    destruct (departed_participants _ _ _ Hd) as [-> _]. now apply NoDup_delete.
  - auto.
Qed.

(** ** The registry, entry by entry *)

Section Middle.
Context {V : Type}.
Implicit Types (k : string) (v : V) (m done todo : JsMap.t V).

Lemma keys_app done todo :
  JsMap.keys (done ++ todo) = JsMap.keys done ++ JsMap.keys todo.
Proof. apply map_app. Qed.

Lemma get_app_absent k done m :
  ~ In k (JsMap.keys done) -> JsMap.get k (done ++ m) = JsMap.get k m.
Proof.
  induction done as [|[k' v'] done IH]; simpl; [reflexivity|].
  intros H. destruct (String.eqb_spec k k') as [->|Hn]; [tauto|].
  apply IH. tauto.
Qed.

Lemma set_middle k v v' done todo :
  ~ In k (JsMap.keys done) ->
  JsMap.set k v' (done ++ (k, v) :: todo) = done ++ (k, v') :: todo.
Proof.
  induction done as [|[k0 v0] done IH]; simpl; intros H.
  - now rewrite String.eqb_refl.
  - destruct (String.eqb_spec k k0) as [->|Hn]; [tauto|].
    rewrite IH; tauto.
Qed.

Lemma delete_middle k v done todo :
  ~ In k (JsMap.keys done) -> ~ In k (JsMap.keys todo) ->
  JsMap.delete k (done ++ (k, v) :: todo) = done ++ todo.
Proof.
  intros Hd Ht. unfold JsMap.delete. rewrite filter_app. simpl.
  rewrite String.eqb_refl. simpl.
  fold (JsMap.delete k done). fold (JsMap.delete k todo).
  now rewrite !delete_absent_key.
Qed.

Lemma NoDup_keys_middle k v done todo :
  NoDup (JsMap.keys (done ++ (k, v) :: todo)) ->
  ~ In k (JsMap.keys done) /\ ~ In k (JsMap.keys todo)
  /\ NoDup (JsMap.keys (done ++ todo)).
Proof.
  rewrite !keys_app. simpl. intros H.
  pose proof (NoDup_remove_2 _ _ _ H) as H2.
  rewrite in_app_iff in H2.
  repeat split; [tauto | tauto | now apply NoDup_remove_1 in H].
Qed.

Lemma NoDup_keys_shift k v v' done todo :
  NoDup (JsMap.keys (done ++ (k, v) :: todo)) ->
  NoDup (JsMap.keys ((done ++ [(k, v')]) ++ todo)).
Proof.
  rewrite <- app_assoc. simpl. now rewrite !keys_app.
Qed.
End Middle.

Lemma disconnect_fold_closed c todo :
  forall done socks tms out,
    NoDup (JsMap.keys (done ++ todo)) ->
    fold_left (disconnect_visit c) (JsMap.keys todo)
              (mkServer (done ++ todo) socks tms, out)
    = (mkServer (done ++ flat_map (leave_entry c) todo) socks tms,
       out ++ flat_map (leave_entry_emits c) todo).
Proof.
  induction todo as [|[k s] todo IH]; intros done socks tms out Hnd.
  - simpl. now rewrite !app_nil_r.
  - destruct (NoDup_keys_middle _ _ _ _ Hnd) as (Hd & Ht & Hrest).
    simpl fold_left. unfold disconnect_visit at 2. simpl fst.
    cbn [activeSessions]. rewrite (get_app_absent _ _ _ Hd). simpl JsMap.get.
    rewrite String.eqb_refl.
    cbn [flat_map]. unfold leave_entry at 1, leave_entry_emits at 1.
    cbn [fst snd].
    destruct (JsSet.has c (participants s)) eqn:Hc.
    + erewrite handleParticipantLeaving_present
        by (cbn [activeSessions]; rewrite (get_app_absent _ _ _ Hd); simpl;
            now rewrite String.eqb_refl).
      unfold with_sessions. cbn [fst snd activeSessions sockets timers].
      destruct (departed c s) as [s'|] eqn:Ed.
      * rewrite (set_middle _ _ _ _ _ Hd).
        replace (done ++ (k, s') :: todo) with ((done ++ [(k, s')]) ++ todo)
          by (now rewrite <- app_assoc).
        rewrite IH by (now apply NoDup_keys_shift with s).
        now rewrite <- !app_assoc.
      * rewrite (delete_middle _ _ _ _ Hd Ht).
        rewrite IH by assumption. now rewrite <- !app_assoc.
    + replace (done ++ (k, s) :: todo) with ((done ++ [(k, s)]) ++ todo)
        by (now rewrite <- app_assoc).
      rewrite IH by (now apply NoDup_keys_shift with s).
      now rewrite <- !app_assoc.
Qed.

(** The disconnect handler in closed form: every entry is treated on its
    own, in the order of the registry. *)
Lemma disconnect_closed c st :
  NoDup (JsMap.keys (activeSessions st)) ->
  disconnect c st
  = (mkServer (flat_map (leave_entry c) (activeSessions st))
              (JsMap.delete c (sockets st)) (timers st),
     flat_map (leave_entry_emits c) (activeSessions st)).
Proof.
  intros H. unfold disconnect, socket_close. cbn [activeSessions].
  apply (disconnect_fold_closed c (activeSessions st) [] _ _ [] H).
Qed.

Lemma get_leave_entries c id m :
  NoDup (JsMap.keys m) ->
  JsMap.get id (flat_map (leave_entry c) m)
  = match JsMap.get id m with
    | Some s => if JsSet.has c (participants s) then departed c s else Some s
    | None => None
    end.
Proof.
  induction m as [|[k s] m IH]; simpl; [reflexivity|].
  intros Hnd. inversion Hnd as [|? ? Hk Hm]; subst.
  specialize (IH Hm). unfold leave_entry at 1. cbn [fst snd].
  destruct (String.eqb_spec id k) as [->|Hn].
  - apply get_None_keys in Hk.
    destruct (JsSet.has c (participants s)).
    + destruct (departed c s); simpl.
      * now rewrite String.eqb_refl.
      * now rewrite IH, Hk.
    + simpl. now rewrite String.eqb_refl.
  - destruct (JsSet.has c (participants s)).
    + destruct (departed c s); simpl; [|assumption].
      destruct (String.eqb_spec id k); [contradiction | assumption].
    + simpl. destruct (String.eqb_spec id k); [contradiction | assumption].
Qed.

Lemma disconnect_get c st id :
  NoDup (JsMap.keys (activeSessions st)) ->
  JsMap.get id (activeSessions (fst (disconnect c st)))
  = match JsMap.get id (activeSessions st) with
    | Some s => if JsSet.has c (participants s) then departed c s else Some s
    | None => None
    end.
Proof.
  intros H. rewrite (disconnect_closed _ _ H). simpl.
  now apply get_leave_entries.
Qed.

Lemma disconnect_emits c st id s :
  NoDup (JsMap.keys (activeSessions st)) ->
  JsMap.get id (activeSessions st) = Some s ->
  JsSet.has c (participants s) = true ->
  incl (leaving_emits c id s) (snd (disconnect c st)).
Proof.
  intros H Hg Hc e He. rewrite (disconnect_closed _ _ H). simpl.
  apply in_flat_map. exists (id, s). split; [now apply get_Some_In|].
  unfold leave_entry_emits. simpl. now rewrite Hc.
Qed.

(** ** Rooms *)

Lemma in_room_sockets st st' r p :
  sockets st' = sockets st -> in_room st' r p = in_room st r p.
Proof. unfold in_room. now intros ->. Qed.

Lemma in_room_connected st r p :
  in_room st r p = true -> JsMap.has p (sockets st) = true.
Proof.
  unfold in_room, JsMap.has. now destruct (JsMap.get p (sockets st)).
Qed.

Lemma in_room_join_same a r st :
  JsMap.has a (sockets st) = true -> in_room (socket_join a r st) r a = true.
Proof.
  unfold JsMap.has, in_room, socket_join.
  destruct (JsMap.get a (sockets st)) as [rooms|] eqn:E; [|discriminate].
  intros _. simpl. rewrite get_set_eq. apply has_In, In_add. now right.
Qed.

Lemma in_room_join_mono a r st r' p :
  in_room st r' p = true -> in_room (socket_join a r st) r' p = true.
Proof.
  unfold in_room, socket_join.
  destruct (JsMap.get a (sockets st)) as [rooms|] eqn:E; [|auto].
  simpl. destruct (String.eqb_spec a p) as [<-|Hn].
  - rewrite get_set_eq, E. intros H. apply has_In, In_add. left.
    now apply has_In.
  - now rewrite get_set_neq.
Qed.

Lemma in_room_connect c st r p :
  p <> c -> in_room (socket_connect c st) r p = in_room st r p.
Proof.
  intros H. unfold in_room, socket_connect. simpl.
  rewrite get_set_neq; [reflexivity | congruence].
Qed.

Lemma in_room_close c st r p :
  p <> c -> in_room (socket_close c st) r p = in_room st r p.
Proof.
  intros H. unfold in_room, socket_close. simpl.
  rewrite get_delete_neq; [reflexivity | congruence].
Qed.

(** Membership of a room, read off the list of its sockets. *)
Lemma In_room_members st r p :
  NoDup (JsMap.keys (sockets st)) ->
  In p (room_members st r) <-> in_room st r p = true.
Proof.
  intros Hnd. unfold room_members, in_room. rewrite in_map_iff. split.
  - intros [[q rooms] [<- Hin]]. apply filter_In in Hin as [Hin Hr].
    simpl in *. now rewrite (In_get _ _ _ Hnd Hin).
  - destruct (JsMap.get p (sockets st)) as [rooms|] eqn:E; [|discriminate].
    intros Hr. exists (p, rooms). split; [reflexivity|].
    apply filter_In. split; [now apply get_Some_In | assumption].
Qed.

Lemma departed_members c s s' p :
  departed c s = Some s' ->
  In p (participants s') -> In p (participants s) /\ p <> c.
Proof.
  intros Hd. destruct (departed_participants _ _ _ Hd) as [-> _].
  apply In_delete.
Qed.

Lemma step_rooms st i :
  well_formed st -> admissible st i = true -> rooms_ok (fst (step st i)).
Proof.
  intros [Hk Hs Hh Hn Hr] Ha id s' p.
  destruct i as [now sock e | k]; [destruct e as [|k|k ack|k|k|k|chunk k|k|k|] |];
    unfold admissible in Ha; simpl in *; rewrite ?check_session_state.
  - intros Hg Hp. pose proof (Hr _ _ _ Hg Hp) as Hin.
    rewrite in_room_connect; [assumption|]. intros ->.
    apply in_room_connected in Hin. rewrite Hin in Ha. discriminate.
  - rewrite socket_join_sessions. simpl.
    destruct (String.eqb_spec k id) as [<-|Hne].
    + rewrite get_set_eq. intros [= <-] [<-|[]].
      now apply in_room_join_same.
    + rewrite get_set_neq by assumption. intros Hg Hp.
      apply in_room_join_mono. now apply (Hr _ _ _ Hg Hp).
  - apply Hr.
  - unfold join_session.
    destruct (JsMap.get k (activeSessions st)) as [s|] eqn:E.
    + destruct (active s); simpl; [|apply Hr].
      rewrite socket_join_sessions.
      destruct (String.eqb_spec k id) as [<-|Hne].
      * rewrite get_set_eq. intros [= <-]. simpl. intros Hp.
        apply In_add in Hp as [Hp| ->].
        -- rewrite (in_room_sockets (socket_join sock k st)) by reflexivity.
           apply in_room_join_mono. now apply (Hr _ _ _ E).
        -- rewrite (in_room_sockets (socket_join sock k st)) by reflexivity.
           now apply in_room_join_same.
      * rewrite get_set_neq by assumption. intros Hg Hp.
        rewrite (in_room_sockets (socket_join sock k st)) by reflexivity.
        apply in_room_join_mono. now apply (Hr _ _ _ Hg Hp).
    + simpl. rewrite socket_join_sessions. simpl.
      destruct (String.eqb_spec k id) as [<-|Hne].
      * rewrite get_set_eq. intros [= <-] [<-|[]].
        now apply in_room_join_same.
      * rewrite get_set_neq by assumption. intros Hg Hp.
        apply in_room_join_mono. now apply (Hr _ _ _ Hg Hp).
  - unfold leave_session.
    destruct (truthy k && JsMap.has k (activeSessions st)); [|apply Hr].
    rewrite handleParticipantLeaving_get.
    rewrite (in_room_sockets st)
      by apply (proj1 (handleParticipantLeaving_frame _ _ _)).
    destruct (String.eqb_spec k id) as [<-|Hne]; [|apply Hr].
    destruct (JsMap.get k (activeSessions st)) as [s|] eqn:E; [|discriminate].
    intros Hd Hp. apply (Hr _ _ _ E).
    now apply (departed_members _ _ _ _ Hd).
  - unfold close_session.
    destruct (truthy k); [|apply Hr].
    destruct (JsMap.get k (activeSessions st)) as [s|] eqn:E; [|apply Hr].
    destruct (String.eqb (host s) sock); simpl; [|apply Hr].
    destruct (String.eqb_spec k id) as [<-|Hne].
    + rewrite get_set_eq. intros [= <-]. simpl. apply (Hr _ _ _ E).
    + rewrite get_set_neq by assumption. apply Hr.
  - unfold audio_chunk_handler. destruct (_ || _); apply Hr.
  - unfold recording_started. destruct (_ && _); apply Hr.
  - unfold stop_recording_handler. destruct (_ && _); apply Hr.
  - rewrite (disconnect_get _ _ _ Hk).
    rewrite (in_room_sockets (socket_close sock st))
      by (rewrite (disconnect_closed _ _ Hk); reflexivity).
    destruct (JsMap.get id (activeSessions st)) as [s|] eqn:E; [|discriminate].
    destruct (JsSet.has sock (participants s)) eqn:Hc.
    + intros Hd Hp. destruct (departed_members _ _ _ _ Hd Hp) as [Hp' Hne].
      rewrite in_room_close by assumption. now apply (Hr _ _ _ E).
    + intros [= <-] Hp. apply has_false in Hc.
      rewrite in_room_close by (intros ->; contradiction).
      now apply (Hr _ _ _ E).
  - unfold close_timeout. simpl.
    destruct (JsMap.has k (activeSessions st)); simpl; [|apply Hr].
    destruct (String.eqb_spec k id) as [<-|Hne].
    + now rewrite get_delete_eq.
    + rewrite get_delete_neq by assumption. apply Hr.
Qed.

Lemma well_formed_init : well_formed init.
Proof.
  split; simpl; try constructor; unfold sessions_sat; simpl; discriminate.
Qed.

Lemma well_formed_step st i :
  well_formed st -> admissible st i = true -> well_formed (fst (step st i)).
Proof.
  intros Hwf Ha. pose proof (step_rooms _ _ Hwf Ha) as Hr.
  destruct Hwf as [Hk Hs Hh Hn _]. split.
  - now apply step_keys.
  - now apply step_socket_keys.
  - now apply host_member_step.
  - now apply members_nodup_step.
  - exact Hr.
Qed.

Lemma reachable_well_formed st : reachable st -> well_formed st.
Proof.
  induction 1 as [|st i _ IH Ha]; [apply well_formed_init|].
  now apply well_formed_step.
Qed.

Lemma reachable_exec st l :
  reachable st -> admissible_run st l = true -> reachable (exec st l).
Proof.
  revert st. induction l as [|i l IH]; intros st Hr; simpl.
  - intros _. exact Hr.
  - intros Ha. apply andb_prop in Ha as [Ha Hl].
    unfold exec in *. simpl. apply IH; [now apply reach_step | assumption].
Qed.

(** ** The sample runs are reachable *)

Lemma room1_reachable : reachable room1.
Proof. apply reachable_exec; [apply reach_init | reflexivity]. Qed.

Lemma two_sockets_reachable : reachable two_sockets.
Proof. apply reachable_exec; [apply reach_init | reflexivity]. Qed.

(** ** create-session *)

(** C1, as stated, fails: when B creates room1 after A did, the session
    object of A is replaced; the host is B and the only member is B. *)
Lemma create_session_twice_replaces :
  let st1 := fst (step two_sockets (client 1 "A" (ev_create_session "room1"))) in
  let st2 := fst (step st1 (client 2 "B" (ev_create_session "room1"))) in
  JsMap.get "room1" (activeSessions st1) = Some (mkSession "A" ["A"] true 1)
  /\ JsMap.get "room1" (activeSessions st2) = Some (mkSession "B" ["B"] true 2)
  /\ JsMap.get "room1" (activeSessions st2)
     <> JsMap.get "room1" (activeSessions st1).
Proof. vm_compute. repeat split; discriminate. Qed.

(** C1, amended: after two create-session events for the same id, whatever
    the server processed in between, there is exactly one session object
    under that id, and it is the one built by the second event: active, with
    the second caller as host and only member. *)
Theorem create_session_twice st a b id now1 now2 between :
  reachable st ->
  let st1 := fst (step st (client now1 a (ev_create_session id))) in
  let st2 :=
    fst (step (exec st1 between) (client now2 b (ev_create_session id))) in
  List.length (filter (fun e => String.eqb id (fst e)) (activeSessions st2))
  = 1%nat
  /\ JsMap.get id (activeSessions st2) = Some (new_session b now2)
  /\ forall s, JsMap.get id (activeSessions st2) = Some s ->
       host s = b /\ participants s = [b] /\ active s = true.
Proof.
  intros Hr st1 st2.
  assert (Hg : JsMap.get id (activeSessions st2) = Some (new_session b now2)).
  { subst st2. simpl. rewrite socket_join_sessions. simpl. apply get_set_eq. }
  split; [|split; [exact Hg|]].
  - apply count_key with (v := new_session b now2); [|exact Hg].
    subst st2 st1. apply step_keys, exec_keys, step_keys.
    apply (wf_keys _ (reachable_well_formed _ Hr)).
  - intros s Hs. rewrite Hg in Hs. injection Hs as <-. now repeat split.
Qed.

Lemma create_session_twice_witness :
  let st1 := fst (step two_sockets (client 1 "A" (ev_create_session "room1"))) in
  let st2 := fst (step st1 (client 2 "B" (ev_create_session "room1"))) in
  List.length
    (filter (fun e => String.eqb "room1" (fst e)) (activeSessions st2))
  = 1%nat
  /\ JsMap.get "room1" (activeSessions st2) = Some (new_session "B" 2).
Proof.
  pose proof (create_session_twice two_sockets "A" "B" "room1" 1 2 []
                two_sockets_reachable) as H.
  split; [exact (proj1 H) | exact (proj1 (proj2 H))].
Defined.

(** ** The host invariant *)

(** C2: in every reachable state the host of every active session is one
    of its members, and every step of the server (create-session,
    join-session, leave-session, close-session, disconnect and all the
    others) keeps that property. *)
Theorem host_invariant_inductive :
  host_invariant init
  /\ (forall st i, host_invariant st -> host_invariant (fst (step st i)))
  /\ (forall st id s,
        reachable st ->
        JsMap.get id (activeSessions st) = Some s ->
        active s = true -> In (host s) (participants s)).
Proof.
  split; [|split].
  - intros id s. discriminate.
  - intros st i. apply host_invariant_step.
  - intros st id s Hr Hg _.
    apply (wf_host _ (reachable_well_formed _ Hr) _ _ Hg).
Qed.

Lemma host_invariant_witness :
  host_invariant (fst (step room1 (client 6 "H" ev_disconnect)))
  /\ In "H" ["H"; "P1"; "P2"].
Proof.
  split.
  - apply (proj1 (proj2 host_invariant_inductive)).
    intros id s Hg Ha.
    apply (proj2 (proj2 host_invariant_inductive) room1 id s).
    + exact room1_reachable.
    + exact Hg.
    + exact Ha.
  - apply (proj2 (proj2 host_invariant_inductive) room1 "room1"
             (mkSession "H" ["H"; "P1"; "P2"] true 1)).
    + exact room1_reachable.
    + reflexivity.
    + reflexivity.
Defined.

(** ** join-session *)

(** C6: joining a session that is marked inactive changes nothing in the
    server state and emits one [session-error] with code SESSION_CLOSED,
    which goes to the joining socket and to nobody else. *)
Theorem join_closed_session st now c id s :
  JsMap.get id (activeSessions st) = Some s ->
  active s = false ->
  let closed :=
    session_error "SESSION_CLOSED" "This session has been closed by the host." in
  step st (client now c (ev_join_session id))
  = (st, [mkEmit (to_socket c) closed])
  /\ delivered st (client now c (ev_join_session id)) = [(c, closed)]
  /\ JsMap.get id (activeSessions (fst (step st (client now c (ev_join_session id)))))
     = Some s.
Proof.
  intros Hg Ha closed.
  assert (E : step st (client now c (ev_join_session id))
              = (st, [mkEmit (to_socket c) closed])).
  { simpl. unfold join_session. now rewrite Hg, Ha. }
  unfold delivered. rewrite E. now repeat split.
Qed.

Lemma join_closed_session_witness :
  delivered room1_closing (client 7 "P3" (ev_join_session "room1"))
  = [("P3",
      session_error "SESSION_CLOSED" "This session has been closed by the host.")]
  /\ fst (step room1_closing (client 7 "P3" (ev_join_session "room1")))
     = room1_closing.
Proof.
  pose proof (join_closed_session room1_closing 7 "P3" "room1"
                (mkSession "H" ["H"; "P1"; "P2"] false 1)
                eq_refl eq_refl) as H.
  cbv zeta in H. destruct H as (H1 & H2 & _).
  split; [exact H2 | now rewrite H1].
Defined.

(** C7: joining an id that is not in the registry creates an active session
    with the joiner as host and only member, and the joiner is told so with
    role host and status created-on-join; no error is emitted. *)
Theorem join_unknown_creates st now c id :
  JsMap.get id (activeSessions st) = None ->
  let r := step st (client now c (ev_join_session id)) in
  JsMap.get id (activeSessions (fst r))
  = Some (mkSession c [c] true now)
  /\ snd r
     = [mkEmit (to_socket c)
          (connection_successful id Host (Some "created-on-join") None)]
  /\ delivered st (client now c (ev_join_session id))
     = [(c, connection_successful id Host (Some "created-on-join") None)]
  /\ forall id', id' <> id ->
       JsMap.get id' (activeSessions (fst r)) = JsMap.get id' (activeSessions st).
Proof.
  intros Hg r. unfold delivered. subst r. simpl. unfold join_session.
  rewrite Hg. simpl. rewrite socket_join_sessions. simpl.
  repeat split.
  - apply get_set_eq.
  - intros id' Hn. apply get_set_neq. congruence.
Qed.

Lemma join_unknown_creates_witness :
  JsMap.get "room2"
    (activeSessions (fst (step room1 (client 6 "P1" (ev_join_session "room2")))))
  = Some (mkSession "P1" ["P1"] true 6).
Proof.
  exact (proj1 (join_unknown_creates room1 6 "P1" "room2" eq_refl)).
Defined.

(** ** Empty sessions *)

Lemma departed_last c s :
  JsSet.delete c (participants s) = [] -> departed c s = None.
Proof. apply departed_None. Qed.

Lemma session_exists_absent id st :
  JsMap.get id (activeSessions st) = None -> session_exists id st = false.
Proof. unfold session_exists. now intros ->. Qed.

Lemma solo_reachable : reachable solo.
Proof. apply reachable_exec; [apply reach_init | reflexivity]. Qed.

(** C4: when a departure takes the last member out of a session, the entry
    is deleted in that very step, without any timer, so that the id is
    absent for a lookup and for check-session right after; this holds of
    [handleParticipantLeaving], and of a leave-session or disconnect event
    after which the last member is no longer a member.  No step produces a
    session without members, and no reachable registry contains one. *)
Theorem empty_session_removed :
  (forall c id st s,
      JsMap.get id (activeSessions st) = Some s ->
      JsSet.delete c (participants s) = [] ->
      let st' := fst (handleParticipantLeaving c id st) in
      JsMap.get id (activeSessions st') = None
      /\ session_exists id st' = false
      /\ timers st' = timers st)
  /\ (forall now c id st s i,
        i = client now c (ev_leave_session id) \/ i = client now c ev_disconnect ->
        reachable st ->
        JsMap.get id (activeSessions st) = Some s ->
        participants s = [c] ->
        let st' := fst (step st i) in
        (forall s', JsMap.get id (activeSessions st') = Some s' ->
                    ~ In c (participants s')) ->
        JsMap.get id (activeSessions st') = None
        /\ session_exists id st' = false
        /\ timers st' = timers st)
  /\ (forall st i, no_empty_session st -> no_empty_session (fst (step st i)))
  /\ (forall st id s,
        reachable st -> In (id, s) (activeSessions st) -> participants s <> []).
Proof.
  split; [|split; [|split]].
  - intros c id st s Hg Hd st'. subst st'.
    assert (E : JsMap.get id
                  (activeSessions (fst (handleParticipantLeaving c id st)))
                = None).
    { rewrite handleParticipantLeaving_get, String.eqb_refl, Hg.
      now apply departed_last. }
    repeat split; [exact E | now apply session_exists_absent |].
    apply handleParticipantLeaving_frame.
  - intros now c id st s i Hi Hr Hg Hp st' Hgone.
    assert (Hd : departed c s = None).
    { apply departed_last. rewrite Hp. simpl. now rewrite String.eqb_refl. }
    assert (E : JsMap.get id (activeSessions st') = None
                /\ timers st' = timers st).
    { subst st'. destruct Hi as [-> | ->]; simpl.
      - unfold leave_session.
        destruct (truthy id && JsMap.has id (activeSessions st)) eqn:G.
        + rewrite handleParticipantLeaving_get, String.eqb_refl, Hg.
          split; [exact Hd | apply handleParticipantLeaving_frame].
        + exfalso. apply (Hgone s).
          * simpl. unfold leave_session. now rewrite G.
          * rewrite Hp. now left.
      - pose proof (wf_keys _ (reachable_well_formed _ Hr)) as Hk.
        rewrite (disconnect_get _ _ _ Hk), Hg, Hp. simpl.
        rewrite String.eqb_refl. simpl. split; [exact Hd|].
        now rewrite (disconnect_closed _ _ Hk). }
    destruct E as [E1 E2].
    repeat split; [exact E1 | now apply session_exists_absent | exact E2].
  - intros st i. apply no_empty_session_step.
  - intros st id s Hr Hin.
    pose proof (reachable_well_formed _ Hr) as Hwf.
    pose proof (In_get _ _ _ (wf_keys _ Hwf) Hin) as Hg.
    pose proof (wf_host _ Hwf _ _ Hg) as Hh. simpl in Hh.
    intros E. now rewrite E in Hh.
Qed.

Lemma empty_session_removed_witness :
  JsMap.get "solo"
    (activeSessions (fst (step solo (client 2 "H" (ev_leave_session "solo")))))
  = None
  /\ session_exists "solo" (fst (step solo (client 2 "H" ev_disconnect))) = false.
Proof.
  destruct empty_session_removed as (_ & Hev & _).
  split.
  - refine (proj1 (Hev 2%Z "H" "solo" solo (mkSession "H" ["H"] true 1) _
                     (or_introl eq_refl) solo_reachable eq_refl eq_refl _)).
    vm_compute. discriminate.
  - refine (proj1 (proj2 (Hev 2%Z "H" "solo" solo (mkSession "H" ["H"] true 1) _
                     (or_intror eq_refl) solo_reachable eq_refl eq_refl _))).
    vm_compute. discriminate.
Defined.

(** ** Host reassignment *)

Lemma in_deliveries_room st out id m p :
  NoDup (JsMap.keys (sockets st)) ->
  In (mkEmit (to_room id) m) out -> in_room st id p = true ->
  In (p, m) (deliveries st out).
Proof.
  intros Hnd He Hp. unfold deliveries. apply in_flat_map.
  exists (mkEmit (to_room id) m). split; [assumption|].
  apply in_map_iff. exists p. split; [reflexivity|].
  simpl. now apply In_room_members.
Qed.

(** C9, as stated, fails for the session whose id is the empty string: a
    leave-session for it by its host A is ignored although B would remain;
    A stays host and no [new-host] is emitted. *)
Lemma host_leave_empty_id_ignored :
  JsMap.get "" (activeSessions empty_id_pair)
  = Some (mkSession "A" ["A"; "B"] true 1)
  /\ JsSet.delete "A" ["A"; "B"] = ["B"]
  /\ step empty_id_pair (client 4 "A" (ev_leave_session ""))
     = (empty_id_pair, []).
Proof. repeat split. Qed.

(** C9, amended: when the host of a session sends leave-session with a
    non-empty id, or disconnects, and somebody remains after it is taken
    out of the member set, the first remaining member (in the order of the
    member set) becomes the host, the member set is the remaining members,
    and a [new-host] event naming the new host is emitted to the room of
    the session, where every remaining member receives it. *)
Theorem host_reassigned st now c id s p rest i :
  reachable st ->
  (i = client now c (ev_leave_session id) /\ id <> "")
  \/ i = client now c ev_disconnect ->
  JsMap.get id (activeSessions st) = Some s ->
  host s = c ->
  JsSet.delete c (participants s) = p :: rest ->
  JsMap.get id (activeSessions (fst (step st i)))
  = Some (mkSession p (p :: rest) (active s) (createdAt s))
  /\ In p (participants s) /\ p <> c
  /\ In (mkEmit (to_room id) (new_host p)) (snd (step st i))
  /\ (forall m, In m (p :: rest) -> In (m, new_host p) (delivered st i)).
Proof.
  intros Hr Hi Hg Hh Hdel. subst c.
  pose proof (reachable_well_formed _ Hr) as Hwf.
  pose proof (wf_host _ Hwf _ _ Hg) as Hin. simpl in Hin.
  assert (Hd : departed (host s) s
               = Some (mkSession p (p :: rest) (active s) (createdAt s))).
  { unfold departed. rewrite Hdel, String.eqb_refl. reflexivity. }
  assert (Hemit : In (mkEmit (to_room id) (new_host p))
                     (leaving_emits (host s) id s)).
  { unfold leaving_emits. rewrite Hd, String.eqb_refl. right. now left. }
  assert (Hconn : JsMap.has (host s) (sockets st) = true).
  { apply in_room_connected with id. now apply (wf_rooms _ Hwf _ _ _ Hg). }
  assert (Hadm : admissible st i = true).
  { destruct Hi as [[-> _] | ->]; exact Hconn. }
  assert (Hstep : JsMap.get id (activeSessions (fst (step st i)))
                  = Some (mkSession p (p :: rest) (active s) (createdAt s))
                  /\ In (mkEmit (to_room id) (new_host p)) (snd (step st i))).
  { destruct Hi as [[-> Hid] | ->]; simpl.
    - unfold leave_session, truthy.
      rewrite (proj2 (String.eqb_neq id "") Hid).
      rewrite (proj2 (has_true id _) (ex_intro _ s Hg)). simpl.
      rewrite handleParticipantLeaving_get, String.eqb_refl, Hg.
      split; [exact Hd|].
      now rewrite (handleParticipantLeaving_present _ _ _ _ Hg).
    - pose proof (wf_keys _ Hwf) as Hk.
      rewrite (disconnect_get _ _ _ Hk), Hg.
      rewrite (proj2 (has_In _ _) Hin). split; [exact Hd|].
      apply (disconnect_emits _ _ _ _ Hk Hg); [now apply has_In | exact Hemit]. }
  destruct Hstep as [Hg' Hout].
  assert (Hp : In p (participants s) /\ p <> host s).
  { apply In_delete. rewrite Hdel. now left. }
  split; [exact Hg'|]. split; [tauto|]. split; [tauto|]. split; [exact Hout|].
  intros m Hm. unfold delivered.
  pose proof (well_formed_step _ _ Hwf Hadm) as Hwf'.
  apply (in_deliveries_room _ _ id); [apply (wf_sockets _ Hwf') | exact Hout |].
  now apply (wf_rooms _ Hwf' _ _ _ Hg').
Qed.

Lemma host_reassigned_witness :
  JsMap.get "room1"
    (activeSessions (fst (step room1 (client 6 "H" (ev_leave_session "room1")))))
  = Some (mkSession "P1" ["P1"; "P2"] true 1)
  /\ In (mkEmit (to_room "room1") (new_host "P1"))
        (snd (step room1 (client 6 "H" ev_disconnect)))
  /\ In ("P2", new_host "P1") (delivered room1 (client 6 "H" ev_disconnect)).
Proof.
  assert (Hid : "room1" <> "") by discriminate.
  pose proof (host_reassigned room1 6 "H" "room1"
                (mkSession "H" ["H"; "P1"; "P2"] true 1) "P1" ["P2"]
                (client 6 "H" (ev_leave_session "room1"))
                room1_reachable (or_introl (conj eq_refl Hid))
                eq_refl eq_refl eq_refl) as (H1 & _).
  pose proof (host_reassigned room1 6 "H" "room1"
                (mkSession "H" ["H"; "P1"; "P2"] true 1) "P1" ["P2"]
                (client 6 "H" ev_disconnect)
                room1_reachable (or_intror eq_refl)
                eq_refl eq_refl eq_refl) as (_ & _ & _ & H4 & H5).
  split; [exact H1|]. split; [exact H4|]. apply H5. simpl. tauto.
Defined.

(** ** Who receives a broadcast *)

Lemma deliveries_one st t m :
  deliveries st [mkEmit t m] = map (fun s => (s, m)) (recipients st t).
Proof. unfold deliveries. simpl. apply app_nil_r. Qed.

Lemma delivered_to_room st room m p m' :
  NoDup (JsMap.keys (sockets st)) ->
  In (p, m') (deliveries st [mkEmit (to_room room) m])
  <-> in_room st room p = true /\ m' = m.
Proof.
  intros Hnd. rewrite deliveries_one, in_map_iff. simpl.
  rewrite <- (In_room_members _ _ _ Hnd). split.
  - intros [q [[= -> ->] Hq]]. now split.
  - intros [Hq ->]. now exists p.
Qed.

Lemma delivered_to_room_except st room sender m p m' :
  NoDup (JsMap.keys (sockets st)) ->
  In (p, m') (deliveries st [mkEmit (to_room_except room sender) m])
  <-> in_room st room p = true /\ in_room st sender p = false /\ m' = m.
Proof.
  intros Hnd. rewrite deliveries_one, in_map_iff. simpl. split.
  - intros [q [[= -> ->] Hq]].
    apply in_map_iff in Hq as [[q rooms] [<- Hin]].
    apply filter_In in Hin as [Hin Hc]. simpl in *.
    apply andb_prop in Hc as [H1 H2]. apply negb_true_iff in H2.
    unfold in_room. rewrite (In_get _ _ _ Hnd Hin). now rewrite H1, H2.
  - intros (H1 & H2 & ->). exists p. split; [reflexivity|].
    unfold in_room in H1, H2.
    destruct (JsMap.get p (sockets st)) as [rooms|] eqn:E; [|discriminate].
    apply in_map_iff. exists (p, rooms). split; [reflexivity|].
    apply filter_In. split; [now apply get_Some_In|].
    simpl. now rewrite H1, H2.
Qed.

(** ** Every socket is in the room of its own id *)

Lemma socket_join_own a r st : own_rooms st -> own_rooms (socket_join a r st).
Proof.
  unfold own_rooms, socket_join. intros Ho c rooms.
  destruct (JsMap.get a (sockets st)) as [rs|] eqn:E; [|apply Ho].
  simpl. destruct (String.eqb_spec a c) as [<-|Hn].
  - rewrite get_set_eq. intros [= <-]. apply In_add. left. now apply Ho.
  - rewrite get_set_neq by assumption. apply Ho.
Qed.

Lemma own_rooms_sockets st st' :
  sockets st' = sockets st -> own_rooms st -> own_rooms st'.
Proof. unfold own_rooms. now intros ->. Qed.

Lemma own_rooms_step st i : own_rooms st -> own_rooms (fst (step st i)).
Proof.
  intros Ho.
  destruct i as [now sock e | k]; [destruct e as [|k|k ack|k|k|k|chunk k|k|k|] |];
    simpl; rewrite ?check_session_state; try assumption.
  - intros c rooms. simpl. destruct (String.eqb_spec sock c) as [<-|Hn].
    + rewrite get_set_eq. intros [= <-]. now left.
    + rewrite get_set_neq by assumption. apply Ho.
  - unfold create_session. simpl. apply socket_join_own.
    now apply (own_rooms_sockets st).
  - unfold join_session.
    destruct (JsMap.get k (activeSessions st)) as [s|].
    + destruct (active s); simpl; [|assumption].
      apply (own_rooms_sockets (socket_join sock k st)); [reflexivity|].
      now apply socket_join_own.
    + simpl. apply socket_join_own. now apply (own_rooms_sockets st).
  - unfold leave_session.
    destruct (truthy k && JsMap.has k (activeSessions st)); [|assumption].
    apply (own_rooms_sockets st); [|assumption].
    apply handleParticipantLeaving_frame.
  - unfold close_session.
    destruct (truthy k); [|assumption].
    destruct (JsMap.get k (activeSessions st)) as [s|]; [|assumption].
    destruct (String.eqb (host s) sock); simpl; [|assumption].
    now apply (own_rooms_sockets st).
  - unfold audio_chunk_handler. now destruct (_ || _).
  - unfold recording_started. now destruct (_ && _).
  - unfold stop_recording_handler. now destruct (_ && _).
  - unfold disconnect.
    apply (own_rooms_sockets (socket_close sock st));
      [apply (proj1 (disconnect_fold_frame sock _ (socket_close sock st, [])))|].
    intros c rooms. simpl. destruct (String.eqb_spec sock c) as [<-|Hn].
    + now rewrite get_delete_eq.
    + rewrite get_delete_neq by assumption. apply Ho.
  - unfold close_timeout. simpl.
    destruct (JsMap.has k (activeSessions st)); simpl;
      now apply (own_rooms_sockets st).
Qed.

Lemma reachable_own_rooms st : reachable st -> own_rooms st.
Proof.
  induction 1 as [|st i _ IH _]; [intros c rooms; discriminate|].
  now apply own_rooms_step.
Qed.

Lemma in_own_room st c :
  own_rooms st -> JsMap.has c (sockets st) = true -> in_room st c c = true.
Proof.
  unfold own_rooms, JsMap.has, in_room. intros Ho.
  destruct (JsMap.get c (sockets st)) as [rooms|] eqn:E; [|discriminate].
  intros _. apply has_In. now apply Ho.
Qed.

Lemma truthy_true id : truthy id = true <-> id <> "".
Proof. unfold truthy. now rewrite negb_true_iff, String.eqb_neq. Qed.

Lemma with_sessions_same st : with_sessions (activeSessions st) st = st.
Proof. now destruct st. Qed.

(** ** leave-session from outside the session *)

(** C10, as stated, fails for the session whose id is the empty string: a
    leave-session for it is ignored, so nothing is broadcast. *)
Lemma leave_empty_id_ignored :
  JsMap.get "" (activeSessions empty_id_room) = Some (mkSession "A" ["A"] true 1)
  /\ step empty_id_room (client 3 "B" (ev_leave_session ""))
     = (empty_id_room, []).
Proof. split; reflexivity. Qed.

(** C10, amended: a leave-session for an existing session with a non-empty
    id, sent by a socket that is not a member, leaves the whole state as it
    is and emits [participant-left] with the sender's id to the room of the
    session, where every member receives it.  With the empty id the event
    is ignored. *)
Theorem leave_by_stranger st now c id s :
  reachable st ->
  JsMap.get id (activeSessions st) = Some s ->
  ~ In c (participants s) ->
  let i := client now c (ev_leave_session id) in
  (id <> "" ->
   step st i = (st, [mkEmit (to_room id) (participant_left c)])
   /\ forall m, In m (participants s) ->
                In (m, participant_left c) (delivered st i))
  /\ (id = "" -> step st i = (st, [])).
Proof.
  intros Hr Hg Hc i. subst i.
  pose proof (reachable_well_formed _ Hr) as Hwf. split.
  - intros Hid.
    assert (E : step st (client now c (ev_leave_session id))
                = (st, [mkEmit (to_room id) (participant_left c)])).
    { simpl. unfold leave_session.
      rewrite (proj2 (truthy_true id) Hid).
      rewrite (proj2 (has_true id _) (ex_intro _ s Hg)). simpl.
      rewrite (handleParticipantLeaving_present _ _ _ _ Hg).
      pose proof (wf_host _ Hwf _ _ Hg) as Hh. simpl in Hh.
      assert (Hd : departed c s = Some s).
      { apply departed_stranger; [assumption | | ].
        - intros E. now rewrite E in Hh.
        - intros E. now rewrite E in Hh. }
      unfold leaving_emits. rewrite Hd, (set_same _ _ _ Hg).
      rewrite with_sessions_same.
      destruct (String.eqb_spec (host s) c) as [E|_]; [|reflexivity].
      now rewrite E in Hh. }
    split; [exact E|]. intros m Hm. unfold delivered. rewrite E. simpl.
    apply (delivered_to_room _ _ _ _ _ (wf_sockets _ Hwf)).
    split; [|reflexivity]. now apply (wf_rooms _ Hwf _ _ _ Hg).
  - intros ->. reflexivity.
Qed.

Lemma leave_by_stranger_witness :
  step room1 (client 6 "X" (ev_leave_session "room1"))
  = (room1, [mkEmit (to_room "room1") (participant_left "X")])
  /\ In ("P2", participant_left "X")
        (delivered room1 (client 6 "X" (ev_leave_session "room1"))).
Proof.
  assert (Hx : ~ In "X" ["H"; "P1"; "P2"]).
  { simpl. intros [H|[H|[H|[]]]]; discriminate. }
  assert (Hid : "room1" <> "") by discriminate.
  pose proof (proj1 (leave_by_stranger room1 6 "X" "room1"
                       (mkSession "H" ["H"; "P1"; "P2"] true 1)
                       room1_reachable eq_refl Hx) Hid) as [H1 H2].
  split; [exact H1|]. apply H2. simpl. tauto.
Defined.

(** ** audio-chunk *)

(** C3, as stated, fails in three ways.  In the session with the empty id a
    chunk of member A reaches nobody, although B is a member.  In room1,
    after P1 has left the session (it is in no session any more), a chunk of
    H still reaches P1, because P1 never left the socket.io room.  And in
    the session whose id is the socket id of its host A, a chunk of A
    reaches nobody, because member B is in the room named by A's id. *)
Lemma audio_chunk_not_exact :
  (JsMap.get "" (activeSessions empty_id_pair)
   = Some (mkSession "A" ["A"; "B"] true 1)
   /\ delivered empty_id_pair (client 4 "A" (ev_audio_chunk [Byte.x61] "")) = [])
  /\ (JsMap.get "room1" (activeSessions room1_after_leave)
      = Some (mkSession "H" ["H"; "P2"] true 1)
      /\ member_sessions "P1" room1_after_leave = []
      /\ delivered room1_after_leave
           (client 7 "H" (ev_audio_chunk [Byte.x61] "room1"))
         = [("P1", audio_chunk [Byte.x61]); ("P2", audio_chunk [Byte.x61])])
  /\ (JsMap.get "A" (activeSessions own_id_room)
      = Some (mkSession "A" ["A"; "B"] true 1)
      /\ delivered own_id_room (client 4 "A" (ev_audio_chunk [Byte.x61] "A"))
         = []).
Proof. repeat split. Qed.

(** C3, amended: an audio-chunk for a non-empty id, sent by a member of an
    active session with that id, changes nothing in the state and is
    forwarded as it is: every member of the session that is not in the room
    named by the sender's socket id receives the payload, the sender does
    not, nothing but that payload is delivered, and it is delivered inside
    the room of the id only.  With the empty id nothing is forwarded. *)
Theorem audio_chunk_fanout st now sender id data s :
  reachable st ->
  JsMap.get id (activeSessions st) = Some s ->
  active s = true ->
  In sender (participants s) ->
  let i := client now sender (ev_audio_chunk data id) in
  (id <> "" ->
   step st i = (st, [mkEmit (to_room_except id sender) (audio_chunk data)])
   /\ (forall m, In m (participants s) -> in_room st sender m = false ->
                 In (m, audio_chunk data) (delivered st i))
   /\ (forall r p, In (r, p) (delivered st i) ->
                   r <> sender /\ p = audio_chunk data
                   /\ in_room st id r = true))
  /\ (id = "" -> step st i = (st, []) /\ delivered st i = []).
Proof.
  intros Hr Hg Ha Hs i. subst i.
  pose proof (reachable_well_formed _ Hr) as Hwf. split.
  - intros Hid.
    assert (E : step st (client now sender (ev_audio_chunk data id))
                = (st, [mkEmit (to_room_except id sender) (audio_chunk data)])).
    { simpl. unfold audio_chunk_handler, session_exists.
      rewrite (proj2 (truthy_true id) Hid).
      rewrite (proj2 (has_true id _) (ex_intro _ s Hg)).
      now rewrite Hg, Ha. }
    split; [exact E|]. unfold delivered. rewrite E. simpl. split.
    + intros m Hm Hout.
      apply (delivered_to_room_except _ _ _ _ _ _ (wf_sockets _ Hwf)).
      split; [|now split]. now apply (wf_rooms _ Hwf _ _ _ Hg).
    + intros r p Hin.
      apply (delivered_to_room_except _ _ _ _ _ _ (wf_sockets _ Hwf)) in Hin.
      destruct Hin as (Hroom & Hout & ->). repeat split; [|assumption].
      intros ->.
      rewrite (in_own_room st sender (reachable_own_rooms _ Hr)) in Hout;
        [discriminate|].
      now apply in_room_connected with id.
  - intros ->. split; reflexivity.
Qed.

Lemma audio_chunk_fanout_witness :
  In ("P1", audio_chunk [Byte.x61])
     (delivered room1 (client 6 "H" (ev_audio_chunk [Byte.x61] "room1")))
  /\ In ("P2", audio_chunk [Byte.x61])
        (delivered room1 (client 6 "H" (ev_audio_chunk [Byte.x61] "room1"))).
Proof.
  assert (Hid : "room1" <> "") by discriminate.
  assert (Hh : In "H" ["H"; "P1"; "P2"]) by (simpl; tauto).
  pose proof (proj1 (audio_chunk_fanout room1 6 "H" "room1" [Byte.x61]
                       (mkSession "H" ["H"; "P1"; "P2"] true 1)
                       room1_reachable eq_refl eq_refl Hh) Hid)
    as (_ & Hall & _).
  split; apply Hall; simpl; try tauto; reflexivity.
Defined.

(** ** close-session and its timer *)

(** C5, as stated, fails in two ways.  When the id has been created again
    before the timer fires, the timer deletes the new, active session.  And
    close-session for the session with the empty id is ignored even when
    its host sends it. *)
Lemma close_timer_not_guarded :
  (admissible_run init (reuse_run ++ [timeout "room1"]) = true
   /\ JsMap.get "room1" (activeSessions (exec init (firstn 4 reuse_run))) = None
   /\ JsMap.get "room1" (activeSessions reused)
      = Some (mkSession "G" ["G"] true 5)
   /\ JsMap.get "room1" (activeSessions (fst (step reused (timeout "room1"))))
      = None)
  /\ (JsMap.get "" (activeSessions empty_id_solo)
      = Some (mkSession "A" ["A"] true 1)
      /\ step empty_id_solo (client 2 "A" (ev_close_session ""))
         = (empty_id_solo, [])).
Proof. repeat split. Qed.

(** C5, amended: close-session by the host, for a non-empty id, marks the
    session inactive, tells the room, and leaves one timer pending for the
    id.  When that timer fires and the id is absent from the registry, the
    registry is left as it is; when it fires and the entry under the id is
    still inactive, the entry is deleted.  With the empty id close-session
    is ignored. *)
Theorem close_session_grace st now c id s :
  (JsMap.get id (activeSessions st) = Some s -> host s = c -> id <> "" ->
   step st (client now c (ev_close_session id))
   = (mkServer (JsMap.set id (with_active false s) (activeSessions st))
               (sockets st) (timers st ++ [id]),
      [mkEmit (to_room id) (session_closed id)])
   /\ session_exists id (fst (step st (client now c (ev_close_session id))))
      = false
   /\ admissible (fst (step st (client now c (ev_close_session id))))
                 (timeout id) = true)
  /\ (JsMap.get id (activeSessions st) = None ->
      activeSessions (fst (step st (timeout id))) = activeSessions st
      /\ snd (step st (timeout id)) = [])
  /\ (JsMap.get id (activeSessions st) = Some s -> active s = false ->
      JsMap.get id (activeSessions (fst (step st (timeout id)))) = None)
  /\ (id = "" -> step st (client now c (ev_close_session id)) = (st, [])).
Proof.
  split; [|split; [|split]].
  - intros Hg Hh Hid.
    assert (E : step st (client now c (ev_close_session id))
                = (mkServer
                     (JsMap.set id (with_active false s) (activeSessions st))
                     (sockets st) (timers st ++ [id]),
                   [mkEmit (to_room id) (session_closed id)])).
    { simpl. unfold close_session.
      rewrite (proj2 (truthy_true id) Hid), Hg, Hh.
      now rewrite String.eqb_refl. }
    rewrite E. simpl. split; [reflexivity|]. split.
    + unfold session_exists. simpl. now rewrite get_set_eq.
    + unfold admissible. simpl. rewrite existsb_app. simpl.
      rewrite String.eqb_refl. apply orb_true_iff. right. reflexivity.
  - intros Hg. simpl. unfold close_timeout, JsMap.has. simpl.
    now rewrite Hg.
  - intros Hg _. simpl. unfold close_timeout, JsMap.has. simpl.
    rewrite Hg. simpl. apply get_delete_eq.
  - intros ->. reflexivity.
Qed.

Lemma close_session_grace_witness :
  session_exists "room1" room1_closing = false
  /\ timers room1_closing = ["room1"]
  /\ JsMap.get "room1"
       (activeSessions (fst (step room1_closing (timeout "room1")))) = None
  /\ activeSessions (fst (step solo (timeout "room1"))) = activeSessions solo.
Proof.
  assert (Hid : "room1" <> "") by discriminate.
  pose proof (close_session_grace room1 6 "H" "room1"
                (mkSession "H" ["H"; "P1"; "P2"] true 1)) as (H1 & _).
  pose proof (close_session_grace room1_closing 7 "H" "room1"
                (mkSession "H" ["H"; "P1"; "P2"] false 1)) as (_ & _ & H3 & _).
  pose proof (close_session_grace solo 7 "H" "room1"
                (mkSession "H" ["H"] true 1)) as (_ & H2 & _).
  destruct (H1 eq_refl eq_refl Hid) as (_ & Hc & _).
  split; [exact Hc|]. split; [reflexivity|].
  split; [exact (H3 eq_refl eq_refl) | exact (proj1 (H2 eq_refl))].
Defined.

(** ** disconnect and leave-session *)

Lemma leave_run_closed now c todo :
  forall done socks tms,
    NoDup (JsMap.keys (done ++ todo)) ->
    (forall e, In e todo ->
       JsSet.has c (participants (snd e)) = true -> fst e <> "") ->
    run (mkServer (done ++ todo) socks tms)
        (leave_events now c
           (map fst
              (filter (fun e => JsSet.has c (participants (snd e))) todo)))
    = (mkServer (done ++ flat_map (leave_entry c) todo) socks tms,
       flat_map (leave_entry_emits c) todo).
Proof.
  induction todo as [|[k s] todo IH]; intros done socks tms Hnd Hids.
  - simpl. now rewrite !app_nil_r.
  - destruct (NoDup_keys_middle _ _ _ _ Hnd) as (Hd & Ht & Hrest).
    assert (Hg : JsMap.get k (done ++ (k, s) :: todo) = Some s).
    { rewrite (get_app_absent _ _ _ Hd). simpl. now rewrite String.eqb_refl. }
    cbn [filter flat_map snd]. unfold leave_entry at 1, leave_entry_emits at 1.
    cbn [fst snd].
    destruct (JsSet.has c (participants s)) eqn:Hc.
    + assert (Hk : k <> "") by (apply (Hids (k, s)); [now left | assumption]).
      cbn [map fst leave_events run step].
      unfold leave_session. cbn [activeSessions].
      rewrite (proj2 (truthy_true k) Hk).
      rewrite (proj2 (has_true k _) (ex_intro _ s Hg)). cbn [andb].
      erewrite handleParticipantLeaving_present by exact Hg.
      unfold with_sessions. cbn [fst snd activeSessions sockets timers].
      fold (leave_events now c
              (map fst
                 (filter (fun e => JsSet.has c (participants (snd e))) todo))).
      destruct (departed c s) as [s'|] eqn:Ed.
      * rewrite (set_middle _ _ _ _ _ Hd).
        replace (done ++ (k, s') :: todo) with ((done ++ [(k, s')]) ++ todo)
          by (now rewrite <- app_assoc).
        rewrite IH; [now rewrite <- !app_assoc | now apply NoDup_keys_shift with s |].
        intros e He. apply Hids. now right.
      * rewrite (delete_middle _ _ _ _ Hd Ht).
        rewrite IH; [reflexivity | assumption |].
        intros e He. apply Hids. now right.
    + replace (done ++ (k, s) :: todo) with ((done ++ [(k, s)]) ++ todo)
        by (now rewrite <- app_assoc).
      rewrite IH; [now rewrite <- !app_assoc | now apply NoDup_keys_shift with s |].
      intros e He. apply Hids. now right.
Qed.

(** C8, as stated, fails for the session whose id is the empty string:
    disconnect takes A out of it (and deletes it), leave-session for that
    id is ignored. *)
Lemma disconnect_differs_from_leave :
  member_sessions "A" empty_id_solo = [""]
  /\ activeSessions (fst (step empty_id_solo (client 2 "A" ev_disconnect))) = []
  /\ activeSessions
       (fst (run empty_id_solo
               (leave_events 2 "A" (member_sessions "A" empty_id_solo))))
     = [("", mkSession "A" ["A"] true 1)]
  /\ snd (step empty_id_solo (client 2 "A" ev_disconnect))
     = [mkEmit (to_room "") (participant_left "A")]
  /\ snd (run empty_id_solo
            (leave_events 2 "A" (member_sessions "A" empty_id_solo)))
     = [].
Proof. repeat split. Qed.

(** C8, amended: when the sessions that contain socket c all have a
    non-empty id, a disconnect of c leaves the same registry (and the same
    pending timers) and emits the same events, in the same order, as a
    leave-session of c for each of those sessions, taken in the order of the
    registry. *)
Theorem disconnect_as_leaves st now c :
  reachable st ->
  ~ In "" (member_sessions c st) ->
  let d := step st (client now c ev_disconnect) in
  let l := run st (leave_events now c (member_sessions c st)) in
  activeSessions (fst d) = activeSessions (fst l)
  /\ timers (fst d) = timers (fst l)
  /\ snd d = snd l.
Proof.
  intros Hr Hids d l. subst d l.
  pose proof (wf_keys _ (reachable_well_formed _ Hr)) as Hk.
  cbn [step]. rewrite (disconnect_closed _ _ Hk).
  unfold member_sessions.
  destruct st as [m socks tms]. cbn [activeSessions sockets timers] in *.
  assert (Hne : forall e, In e m ->
            JsSet.has c (participants (snd e)) = true -> fst e <> "").
  { intros e He Hc E. apply Hids. unfold member_sessions. simpl.
    rewrite <- E. apply in_map. apply filter_In. now split. }
  pose proof (leave_run_closed now c m [] socks tms Hk Hne) as E.
  cbn [app] in E. rewrite E. now repeat split.
Qed.

Lemma disconnect_as_leaves_witness :
  activeSessions (fst (step room1 (client 6 "H" ev_disconnect)))
  = activeSessions
      (fst (run room1 (leave_events 6 "H" (member_sessions "H" room1))))
  /\ snd (step room1 (client 6 "H" ev_disconnect))
     = snd (run room1 (leave_events 6 "H" (member_sessions "H" room1))).
Proof.
  assert (Hids : ~ In "" (member_sessions "H" room1)).
  { simpl. intros [H|[]]. discriminate. }
  pose proof (disconnect_as_leaves room1 6 "H" room1_reachable Hids)
    as (H1 & _ & H3).
  split; [exact H1 | exact H3].
Defined.


(** * Further properties of server.cjs *)

(** ** One step, seen from one session id, with the input that did it *)

Lemma step_change st i id :
  NoDup (JsMap.keys (activeSessions st)) ->
  session_change id i
    (JsMap.get id (activeSessions st))
    (JsMap.get id (activeSessions (fst (step st i)))).
Proof.
  intros Hk.
  destruct i as [now sock e | k]; [destruct e as [|k|k ack|k|k|k|chunk k|k|k|] |];
    simpl; rewrite ?check_session_state.
  - constructor.
  - unfold create_session. simpl. rewrite socket_join_sessions. simpl.
    case_id k id; constructor.
  - constructor.
  - unfold join_session.
    destruct (JsMap.get k (activeSessions st)) as [s|] eqn:E.
    + destruct (active s) eqn:Ea; simpl; [|constructor].
      rewrite socket_join_sessions.
      case_id k id; [rewrite E; now constructor | constructor].
    + simpl. rewrite socket_join_sessions. simpl.
      case_id k id; [rewrite E|]; constructor.
  - unfold leave_session.
    destruct (truthy k && JsMap.has k (activeSessions st)); [|constructor].
    rewrite handleParticipantLeaving_get.
    destruct (String.eqb_spec k id) as [<-|Hn]; [|constructor].
    destruct (JsMap.get k (activeSessions st)) as [s|]; [|constructor].
    destruct (departed sock s) eqn:Ed; [now constructor | constructor].
  - unfold close_session.
    destruct (truthy k); [|constructor].
    destruct (JsMap.get k (activeSessions st)) as [s|] eqn:E; [|constructor].
    destruct (String.eqb_spec (host s) sock) as [<-|Hn]; simpl; [|constructor].
    case_id k id; [rewrite E|]; constructor.
  - unfold audio_chunk_handler. destruct (_ || _); constructor.
  - unfold recording_started. destruct (_ && _); constructor.
  - unfold stop_recording_handler. destruct (_ && _); constructor.
  - rewrite (disconnect_get _ _ _ Hk).
    destruct (JsMap.get id (activeSessions st)) as [s|]; [|constructor].
    destruct (JsSet.has sock (participants s)) eqn:Hc; [|constructor].
    destruct (departed sock s) eqn:Ed; [|constructor].
    constructor; [assumption | now apply has_In].
  - unfold close_timeout. simpl.
    destruct (JsMap.has k (activeSessions st)); simpl; [|constructor].
    case_id k id; constructor.
Qed.

(** ** Timers *)

Lemma timer_done_other id k ts :
  id <> k -> In id ts -> In id (timer_done k ts).
Proof.
  intros Hn. induction ts as [|t ts IH]; simpl; [tauto|].
  destruct (String.eqb_spec k t) as [<-|Ht].
  - intros [E|H]; [congruence | assumption].
  - intros [E|H]; [now left | right; auto].
Qed.

Lemma step_timers_kept st i id :
  NoDup (JsMap.keys (activeSessions st)) ->
  In id (timers st) -> i <> timeout id -> In id (timers (fst (step st i))).
Proof.
  intros Hk Hin Hi.
  destruct i as [now sock e | k]; [destruct e as [|k|k ack|k|k|k|chunk k|k|k|] |];
    simpl; rewrite ?check_session_state; try assumption.
  - unfold create_session. simpl. now rewrite socket_join_timers.
  - unfold join_session.
    destruct (JsMap.get k (activeSessions st)) as [s|].
    + destruct (active s); simpl; [|assumption].
      now rewrite socket_join_timers.
    + simpl. now rewrite socket_join_timers.
  - unfold leave_session.
    destruct (truthy k && JsMap.has k (activeSessions st)); [|assumption].
    now rewrite (proj2 (handleParticipantLeaving_frame _ _ _)).
  - unfold close_session.
    destruct (truthy k); [|assumption].
    destruct (JsMap.get k (activeSessions st)) as [s|]; [|assumption].
    destruct (String.eqb (host s) sock); simpl; [|assumption].
    apply in_or_app. now left.
  - unfold audio_chunk_handler. now destruct (_ || _).
  - unfold recording_started. now destruct (_ && _).
  - unfold stop_recording_handler. now destruct (_ && _).
  - now rewrite (disconnect_closed _ _ Hk).
  - assert (Hn : id <> k) by congruence.
    unfold close_timeout. simpl.
    destruct (JsMap.has k (activeSessions st)); simpl;
      now apply timer_done_other.
Qed.

Lemma input_is_timeout (i : input) (id : string) :
  {i = timeout id} + {i <> timeout id}.
Proof.
  destruct i as [now c e|k]; [right; discriminate|].
  destruct (string_dec k id) as [->|Hn]; [now left | right; congruence].
Qed.

Lemma closing_has_timer_step st i :
  NoDup (JsMap.keys (activeSessions st)) ->
  closing_has_timer st -> closing_has_timer (fst (step st i)).
Proof.
  intros Hk Hinv id s' Hg' Ha'.
  pose proof (step_change st i id Hk) as Hc. rewrite Hg' in Hc.
  destruct (input_is_timeout i id) as [->|Hi].
  - exfalso. revert Hg'. simpl. unfold close_timeout. simpl.
    destruct (JsMap.has id (activeSessions st)) eqn:Hh; simpl.
    + now rewrite get_delete_eq.
    + unfold JsMap.has in Hh.
      destruct (JsMap.get id (activeSessions st)); discriminate.
  - inversion Hc as [i0 o Ho| |now c o|now c|now c s Ha|now c s s0 Hd
                     |now c s s0 Hd Hin|now s]; subst.
    + apply step_timers_kept; [assumption | | assumption].
      apply (Hinv id s'); [now symmetry | assumption].
    + discriminate.
    + discriminate.
    + simpl in Ha'. congruence.
    + apply step_timers_kept; [assumption | | assumption].
      apply (Hinv id s); [now symmetry|].
      now rewrite <- (departed_active _ _ _ Hd).
    + apply step_timers_kept; [assumption | | assumption].
      apply (Hinv id s); [now symmetry|].
      now rewrite <- (departed_active _ _ _ Hd).
    + match goal with H : Some s = _ |- _ => symmetry in H; rename H into Hs end.
      simpl in *. unfold close_session in *. rewrite Hs in *.
      rewrite String.eqb_refl in *.
      destruct (truthy id); simpl in *.
      * apply in_or_app. right. now left.
      * apply (Hinv id (with_active false s) Hg'). reflexivity.
Qed.

(** ** Emissions and who gets them *)

Lemma in_deliveries st out e p :
  In e out -> In p (recipients st (dest e)) ->
  In (p, msg e) (deliveries st out).
Proof.
  intros He Hp. unfold deliveries. apply in_flat_map. exists e.
  split; [assumption|]. apply in_map_iff. now exists p.
Qed.

Lemma deliveries_inv st out p m :
  In (p, m) (deliveries st out) ->
  exists e, In e out /\ msg e = m /\ In p (recipients st (dest e)).
Proof.
  unfold deliveries. intros H. apply in_flat_map in H as [e [He H]].
  apply in_map_iff in H as [q [[= -> <-] Hq]]. now exists e.
Qed.

Lemma in_recipients_room st id p :
  NoDup (JsMap.keys (sockets st)) ->
  In p (recipients st (to_room id)) <-> in_room st id p = true.
Proof. intros H. simpl. now apply In_room_members. Qed.

Lemma in_recipients_room_except st id c p :
  NoDup (JsMap.keys (sockets st)) ->
  In p (recipients st (to_room_except id c))
  <-> in_room st id p = true /\ in_room st c p = false.
Proof.
  intros Hnd. simpl. rewrite in_map_iff. unfold in_room. split.
  - intros [[q rooms] [<- Hin]]. apply filter_In in Hin as [Hin Hc].
    simpl in *. apply andb_prop in Hc as [H1 H2].
    apply negb_true_iff in H2. rewrite (In_get _ _ _ Hnd Hin). now split.
  - destruct (JsMap.get p (sockets st)) as [rooms|] eqn:E;
      [|intros [? _]; discriminate].
    intros [H1 H2]. exists (p, rooms). split; [reflexivity|].
    apply filter_In. split; [now apply get_Some_In|].
    simpl. now rewrite H1, H2.
Qed.

Lemma in_room_join_other a r st r' p :
  p <> a -> in_room (socket_join a r st) r' p = in_room st r' p.
Proof.
  intros Hn. unfold in_room, socket_join.
  destruct (JsMap.get a (sockets st)) as [rooms|]; [|reflexivity].
  simpl. rewrite get_set_neq; [reflexivity | congruence].
Qed.

Lemma room1_closing_reachable : reachable room1_closing.
Proof. apply reach_step; [apply room1_reachable | reflexivity]. Qed.

(** X12: whatever a step emits to the room of a session, with
    [io.to(id)], reaches every socket that is a member of that session
    after the step; what it emits with [socket.to(id)] reaches every such
    member that is not in the room named by the emitting socket's id. *)
Theorem broadcast_reaches_members st i id s' p m :
  reachable st ->
  admissible st i = true ->
  JsMap.get id (activeSessions (fst (step st i))) = Some s' ->
  In p (participants s') ->
  (In (mkEmit (to_room id) m) (snd (step st i)) -> In (p, m) (delivered st i))
  /\ (forall c, in_room (fst (step st i)) c p = false ->
        In (mkEmit (to_room_except id c) m) (snd (step st i)) ->
        In (p, m) (delivered st i)).
Proof.
  intros Hr Ha Hg Hp.
  pose proof (well_formed_step _ _ (reachable_well_formed _ Hr) Ha) as Hwf.
  pose proof (wf_rooms _ Hwf _ _ _ Hg Hp) as Hroom.
  unfold delivered. split.
  - intros He. apply (in_deliveries _ _ _ _ He).
    now apply in_recipients_room; [apply (wf_sockets _ Hwf)|].
  - intros c Hc He. apply (in_deliveries _ _ _ _ He).
    apply in_recipients_room_except; [apply (wf_sockets _ Hwf) | now split].
Qed.

Lemma broadcast_reaches_members_witness :
  In ("P2", session_closed "room1")
     (delivered room1 (client 6 "H" (ev_close_session "room1")))
  /\ In ("P2", participant_recording "H")
        (delivered room1 (client 6 "H" (ev_recording_started "room1"))).
Proof.
  assert (Hp : In "P2" ["H"; "P1"; "P2"]) by (simpl; tauto).
  split.
  - refine (proj1 (broadcast_reaches_members room1
                     (client 6 "H" (ev_close_session "room1")) "room1"
                     (mkSession "H" ["H"; "P1"; "P2"] false 1) "P2"
                     (session_closed "room1")
                     room1_reachable eq_refl eq_refl Hp) _).
    simpl. now left.
  - refine (proj2 (broadcast_reaches_members room1
                     (client 6 "H" (ev_recording_started "room1")) "room1"
                     (mkSession "H" ["H"; "P1"; "P2"] true 1) "P2"
                     (participant_recording "H")
                     room1_reachable eq_refl eq_refl Hp) "H" eq_refl _).
    simpl. now left.
Defined.

(** ** Lifecycle of the active flag *)

(** X8: the only input that turns an active session into an inactive one
    is a close-session for its (non-empty) id sent by its host; nothing
    else of the session changes in that step. *)
Theorem only_host_close_deactivates st i id s s' :
  reachable st ->
  JsMap.get id (activeSessions st) = Some s ->
  active s = true ->
  JsMap.get id (activeSessions (fst (step st i))) = Some s' ->
  active s' = false ->
  exists now,
    i = client now (host s) (ev_close_session id)
    /\ s' = with_active false s /\ id <> "".
Proof.
  intros Hr Hg Ha Hg' Ha'.
  pose proof (step_change st i id (wf_keys _ (reachable_well_formed _ Hr)))
    as Hc.
  rewrite Hg, Hg' in Hc.
  inversion Hc; subst; try congruence;
    try (match goal with Hd : departed _ _ = Some _ |- _ =>
           rewrite (departed_active _ _ _ Hd) in *; congruence end).
  all: simpl in *; try congruence.
  exists now. repeat split. intros ->.
  unfold close_session in Hg'. simpl in Hg'. rewrite Hg in Hg'.
  injection Hg' as Hg'. rewrite Hg' in Ha. simpl in Ha. discriminate.
Qed.

Lemma only_host_close_deactivates_witness :
  exists now,
    client 6 "H" (ev_close_session "room1")
    = client now "H" (ev_close_session "room1")
    /\ mkSession "H" ["H"; "P1"; "P2"] false 1
       = with_active false (mkSession "H" ["H"; "P1"; "P2"] true 1)
    /\ "room1" <> "".
Proof.
  exact (only_host_close_deactivates room1
           (client 6 "H" (ev_close_session "room1")) "room1"
           (mkSession "H" ["H"; "P1"; "P2"] true 1)
           (mkSession "H" ["H"; "P1"; "P2"] false 1)
           room1_reachable eq_refl eq_refl eq_refl eq_refl).
Defined.

(** X9: an inactive session never becomes active again: if the object
    under an id is inactive before a step and active after it, the step was
    a create-session for that id and the object is a new one. *)
Theorem never_reactivated st i id s s' :
  reachable st ->
  JsMap.get id (activeSessions st) = Some s ->
  active s = false ->
  JsMap.get id (activeSessions (fst (step st i))) = Some s' ->
  active s' = true ->
  exists now c,
    i = client now c (ev_create_session id) /\ s' = new_session c now.
Proof.
  intros Hr Hg Ha Hg' Ha'.
  pose proof (step_change st i id (wf_keys _ (reachable_well_formed _ Hr)))
    as Hc.
  rewrite Hg, Hg' in Hc.
  inversion Hc; subst; try congruence;
    try (match goal with Hd : departed _ _ = Some _ |- _ =>
           rewrite (departed_active _ _ _ Hd) in *; congruence end).
  all: simpl in *; try congruence.
  eexists _, _. split; reflexivity.
Qed.

Lemma never_reactivated_witness :
  exists now c,
    client 7 "P1" (ev_create_session "room1")
    = client now c (ev_create_session "room1")
    /\ mkSession "P1" ["P1"] true 7 = new_session c now.
Proof.
  exact (never_reactivated room1_closing
           (client 7 "P1" (ev_create_session "room1")) "room1"
           (mkSession "H" ["H"; "P1"; "P2"] false 1)
           (mkSession "P1" ["P1"] true 7)
           room1_closing_reachable eq_refl eq_refl eq_refl eq_refl).
Defined.

(** X10: in every reachable state a session that is marked inactive has a
    removal timer pending for its id, and when that timer fires the entry
    is gone. *)
Theorem closing_session_has_timer st id s :
  reachable st ->
  JsMap.get id (activeSessions st) = Some s ->
  active s = false ->
  In id (timers st)
  /\ admissible st (timeout id) = true
  /\ JsMap.get id (activeSessions (fst (step st (timeout id)))) = None.
Proof.
  intros Hr Hg Ha.
  assert (Hinv : closing_has_timer st).
  { clear Hg Ha. induction Hr as [|st i Hr IH Hadm].
    - intros k t. discriminate.
    - apply closing_has_timer_step; [|assumption].
      apply (wf_keys _ (reachable_well_formed _ Hr)). }
  pose proof (Hinv _ _ Hg Ha) as Hin. repeat split.
  - exact Hin.
  - simpl. apply existsb_exists. exists id.
    split; [assumption | apply String.eqb_refl].
  - simpl. unfold close_timeout, JsMap.has. simpl. rewrite Hg. simpl.
    apply get_delete_eq.
Qed.

Lemma closing_session_has_timer_witness :
  In "room1" (timers room1_closing)
  /\ admissible room1_closing (timeout "room1") = true.
Proof.
  pose proof (closing_session_has_timer room1_closing "room1"
                (mkSession "H" ["H"; "P1"; "P2"] false 1)
                room1_closing_reachable eq_refl eq_refl) as (H1 & H2 & _).
  now split.
Defined.

(** ** Sessions do not interfere *)

(** X7: an event that carries a session id and whose handler does not
    throw, and the expiry of the close timer of an id, leave the object
    stored under every other id as it is. *)
Theorem other_sessions_untouched st k id :
  id <> k ->
  (forall now c e,
      event_session_id e = Some k ->
      throws (client now c e) = false ->
      JsMap.get id (activeSessions (fst (step st (client now c e))))
      = JsMap.get id (activeSessions st))
  /\ JsMap.get id (activeSessions (fst (step st (timeout k))))
     = JsMap.get id (activeSessions st).
Proof.
  intros Hn. assert (Hn' : k <> id) by congruence. split.
  - intros now c e He _.
    destruct e as [|k'|k' ack|k'|k'|k'|chunk k'|k'|k'|]; simpl in He;
      try discriminate; injection He as ->; simpl.
    + unfold create_session. simpl. rewrite socket_join_sessions. simpl.
      now apply get_set_neq.
    + now rewrite check_session_state.
    + unfold join_session.
      destruct (JsMap.get k (activeSessions st)) as [s|].
      * destruct (active s); simpl; [|reflexivity].
        rewrite socket_join_sessions. now apply get_set_neq.
      * simpl. rewrite socket_join_sessions. simpl. now apply get_set_neq.
    + unfold leave_session.
      destruct (truthy k && JsMap.has k (activeSessions st)); [|reflexivity].
      rewrite handleParticipantLeaving_get.
      destruct (String.eqb_spec k id); [contradiction | reflexivity].
    + unfold close_session.
      destruct (truthy k); [|reflexivity].
      destruct (JsMap.get k (activeSessions st)) as [s|]; [|reflexivity].
      destruct (String.eqb (host s) c); simpl; [|reflexivity].
      now apply get_set_neq.
    + unfold audio_chunk_handler. now destruct (_ || _).
    + unfold recording_started. now destruct (_ && _).
    + unfold stop_recording_handler. now destruct (_ && _).
  - simpl. unfold close_timeout. simpl.
    destruct (JsMap.has k (activeSessions st)); simpl; [|reflexivity].
    now apply get_delete_neq.
Qed.

Lemma other_sessions_untouched_witness :
  JsMap.get "room1"
    (activeSessions
       (fst (step room1 (client 6 "P1" (ev_create_session "room2")))))
  = JsMap.get "room1" (activeSessions room1).
Proof.
  assert (Hn : "room1" <> "room2") by discriminate.
  exact (proj1 (other_sessions_untouched room1 "room2" "room1" Hn)
           6%Z "P1" (ev_create_session "room2") eq_refl eq_refl).
Defined.

(** ** join-session into an active session *)

Lemma filter_others_add c ps :
  filter (fun id => negb (String.eqb id c)) (JsSet.add c ps)
  = filter (fun id => negb (String.eqb id c)) ps.
Proof.
  unfold JsSet.add. destruct (JsSet.has c ps); [reflexivity|].
  rewrite filter_app. simpl. rewrite String.eqb_refl. simpl.
  apply app_nil_r.
Qed.

(** X1: joining an active session adds the joiner to the end of the member
    set (unless it is there already) and changes nothing else of the
    session.  The joiner is told its role and the host, and gets the list
    of the members other than itself, in the order of the member set; every
    member that is not in the room named by the joiner's socket id gets
    [participant-joined] with the joiner's id, the joiner does not. *)
Theorem join_active_session st now c id s :
  reachable st ->
  JsMap.has c (sockets st) = true ->
  JsMap.get id (activeSessions st) = Some s ->
  active s = true ->
  let i := client now c (ev_join_session id) in
  JsMap.get id (activeSessions (fst (step st i)))
  = Some (mkSession (host s) (JsSet.add c (participants s)) true (createdAt s))
  /\ snd (step st i)
     = [mkEmit (to_socket c)
          (connection_successful id Participant None (Some (host s)));
        mkEmit (to_room_except id c) (participant_joined c);
        mkEmit (to_socket c)
          (participants_list
             (filter (fun m => negb (String.eqb m c)) (participants s)))]
  /\ (forall m, In m (participants s) -> in_room st c m = false ->
                In (m, participant_joined c) (delivered st i))
  /\ ~ In (c, participant_joined c) (delivered st i)
  /\ in_room (fst (step st i)) id c = true.
Proof.
  intros Hr Hconn Hg Ha i.
  assert (Hadm : admissible st i = true) by exact Hconn.
  pose proof (well_formed_step _ _ (reachable_well_formed _ Hr) Hadm) as Hwf.
  pose proof (reachable_own_rooms _ Hr) as Hown.
  assert (Hg' : JsMap.get id (activeSessions (fst (step st i)))
                = Some (mkSession (host s) (JsSet.add c (participants s))
                          true (createdAt s))).
  { subst i. simpl. unfold join_session. rewrite Hg, Ha. simpl.
    rewrite socket_join_sessions, get_set_eq.
    unfold with_participants. now rewrite Ha. }
  assert (Hout : snd (step st i)
     = [mkEmit (to_socket c)
          (connection_successful id Participant None (Some (host s)));
        mkEmit (to_room_except id c) (participant_joined c);
        mkEmit (to_socket c)
          (participants_list
             (filter (fun m => negb (String.eqb m c)) (participants s)))]).
  { subst i. simpl. unfold join_session. rewrite Hg, Ha. simpl.
    now rewrite filter_others_add. }
  assert (Hsock : sockets (fst (step st i)) = sockets (socket_join c id st)).
  { subst i. simpl. unfold join_session. now rewrite Hg, Ha. }
  split; [exact Hg'|]. split; [exact Hout|]. split; [|split].
  - intros m Hm Hne. unfold delivered. rewrite Hout.
    apply (in_deliveries _ _ (mkEmit (to_room_except id c) (participant_joined c)));
      [simpl; tauto|].
    apply in_recipients_room_except; [apply (wf_sockets _ Hwf)|]. split.
    + apply (wf_rooms _ Hwf _ _ _ Hg'). simpl. apply In_add. now left.
    + rewrite (in_room_sockets (socket_join c id st)) by exact Hsock.
      rewrite in_room_join_other; [assumption|]. intros ->.
      rewrite (in_own_room st c Hown Hconn) in Hne. discriminate.
  - unfold delivered. rewrite Hout. intros Hin.
    apply deliveries_inv in Hin as [e [He [Hm Hrec]]].
    destruct He as [<-|[<-|[<-|[]]]]; simpl in Hm; try discriminate.
    apply in_recipients_room_except in Hrec; [|apply (wf_sockets _ Hwf)].
    destruct Hrec as [Hin Hout'].
    rewrite (in_own_room _ c (own_rooms_step st i Hown)) in Hout';
      [discriminate|].
    now apply in_room_connected with id.
  - apply (wf_rooms _ Hwf _ _ _ Hg'). simpl. apply In_add. now right.
Qed.

Lemma join_active_session_witness :
  JsMap.get "room1"
    (activeSessions (fst (step room1 (client 6 "H" ev_connection))))
  = Some (mkSession "H" ["H"; "P1"; "P2"] true 1)
  /\ In ("P1", participant_joined "P3")
        (delivered (fst (step room1 (client 6 "P3" ev_connection)))
                   (client 7 "P3" (ev_join_session "room1"))).
Proof.
  split; [reflexivity|].
  assert (Hr : reachable (fst (step room1 (client 6 "P3" ev_connection))))
    by (apply reach_step; [apply room1_reachable | reflexivity]).
  refine (proj1 (proj2 (proj2
    (join_active_session _ 7 "P3" "room1"
       (mkSession "H" ["H"; "P1"; "P2"] true 1) Hr eq_refl eq_refl eq_refl)))
    "P1" _ eq_refl).
  simpl. tauto.
Defined.

(** X2: in every reachable state no member set contains a socket twice;
    a join-session by a socket that is a member already leaves the
    registry as it is. *)
Theorem members_without_repetition st :
  reachable st ->
  (forall id s, JsMap.get id (activeSessions st) = Some s ->
                NoDup (participants s))
  /\ (forall now c id s,
        JsMap.get id (activeSessions st) = Some s ->
        In c (participants s) ->
        activeSessions (fst (step st (client now c (ev_join_session id))))
        = activeSessions st).
Proof.
  intros Hr. split.
  - apply (wf_nodup _ (reachable_well_formed _ Hr)).
  - intros now c id s Hg Hc. simpl. unfold join_session. rewrite Hg.
    destruct (active s) eqn:Ha; simpl; [|reflexivity].
    rewrite socket_join_sessions. apply set_same. rewrite Hg. f_equal.
    unfold with_participants, JsSet.add.
    rewrite (proj2 (has_In _ _) Hc). now destruct s.
Qed.

Lemma members_without_repetition_witness :
  NoDup ["H"; "P1"; "P2"]
  /\ activeSessions (fst (step room1 (client 6 "P1" (ev_join_session "room1"))))
     = activeSessions room1.
Proof.
  destruct (members_without_repetition room1 room1_reachable) as [H1 H2].
  split.
  - exact (H1 "room1" (mkSession "H" ["H"; "P1"; "P2"] true 1) eq_refl).
  - refine (H2 6%Z "P1" "room1" (mkSession "H" ["H"; "P1"; "P2"] true 1)
              eq_refl _).
    simpl. tauto.
Defined.

(** ** close-session by somebody else *)

(** X3: a close-session for an existing session with a non-empty id, sent
    by a socket that is not its host, changes nothing and emits one
    [session-error] with code NOT_SESSION_HOST, to that socket only. *)
Theorem close_by_non_host st now c id s :
  JsMap.get id (activeSessions st) = Some s ->
  host s <> c ->
  id <> "" ->
  let refused :=
    session_error "NOT_SESSION_HOST"
                  "Only the session host can close a session." in
  step st (client now c (ev_close_session id))
  = (st, [mkEmit (to_socket c) refused])
  /\ delivered st (client now c (ev_close_session id)) = [(c, refused)].
Proof.
  intros Hg Hh Hid refused.
  assert (E : step st (client now c (ev_close_session id))
              = (st, [mkEmit (to_socket c) refused])).
  { simpl. unfold close_session.
    rewrite (proj2 (truthy_true id) Hid), Hg.
    now destruct (String.eqb_spec (host s) c). }
  unfold delivered. rewrite E. now split.
Qed.

Lemma close_by_non_host_witness :
  delivered room1 (client 6 "P1" (ev_close_session "room1"))
  = [("P1", session_error "NOT_SESSION_HOST"
                          "Only the session host can close a session.")].
Proof.
  assert (Hh : "H" <> "P1") by discriminate.
  assert (Hid : "room1" <> "") by discriminate.
  exact (proj2 (close_by_non_host room1 6 "P1" "room1"
                  (mkSession "H" ["H"; "P1"; "P2"] true 1) eq_refl Hh Hid)).
Defined.

(** ** recording-started and stop-recording *)

(** X4: for an existing session with a non-empty id, active or not, and
    whether or not the sender is a member, stop-recording changes nothing
    and reaches every member of the session, and recording-started changes
    nothing and reaches, with the sender's id, every member that is not in
    the room named by the sender's socket id; the sender never receives its
    own recording-started. *)
Theorem recording_signals st now c id s :
  reachable st ->
  JsMap.get id (activeSessions st) = Some s ->
  id <> "" ->
  let stop := client now c (ev_stop_recording id) in
  let started := client now c (ev_recording_started id) in
  step st stop = (st, [mkEmit (to_room id) stop_recording])
  /\ (forall m, In m (participants s) -> In (m, stop_recording) (delivered st stop))
  /\ step st started
     = (st, [mkEmit (to_room_except id c) (participant_recording c)])
  /\ (forall m, In m (participants s) -> in_room st c m = false ->
                In (m, participant_recording c) (delivered st started))
  /\ (forall p, ~ In (c, p) (delivered st started)).
Proof.
  intros Hr Hg Hid stop started. subst stop started.
  pose proof (reachable_well_formed _ Hr) as Hwf.
  assert (E1 : step st (client now c (ev_stop_recording id))
               = (st, [mkEmit (to_room id) stop_recording])).
  { simpl. unfold stop_recording_handler.
    rewrite (proj2 (truthy_true id) Hid).
    now rewrite (proj2 (has_true id _) (ex_intro _ s Hg)). }
  assert (E2 : step st (client now c (ev_recording_started id))
               = (st, [mkEmit (to_room_except id c) (participant_recording c)])).
  { simpl. unfold recording_started.
    rewrite (proj2 (truthy_true id) Hid).
    now rewrite (proj2 (has_true id _) (ex_intro _ s Hg)). }
  unfold delivered. rewrite E1, E2. simpl fst. simpl snd.
  split; [reflexivity|]. split; [|split; [reflexivity|split]].
  - intros m Hm. apply (delivered_to_room _ _ _ _ _ (wf_sockets _ Hwf)).
    split; [|reflexivity]. now apply (wf_rooms _ Hwf _ _ _ Hg).
  - intros m Hm Hne.
    apply (delivered_to_room_except _ _ _ _ _ _ (wf_sockets _ Hwf)).
    split; [|now split]. now apply (wf_rooms _ Hwf _ _ _ Hg).
  - intros p Hin.
    apply (delivered_to_room_except _ _ _ _ _ _ (wf_sockets _ Hwf)) in Hin.
    destruct Hin as (Hroom & Hout & _).
    rewrite (in_own_room st c (reachable_own_rooms _ Hr)) in Hout;
      [discriminate|].
    now apply in_room_connected with id.
Qed.

Lemma recording_signals_witness :
  In ("H", stop_recording)
     (delivered room1_closing (client 7 "H" (ev_stop_recording "room1")))
  /\ In ("P2", participant_recording "X")
        (delivered room1_closing (client 7 "X" (ev_recording_started "room1"))).
Proof.
  assert (Hid : "room1" <> "") by discriminate.
  split.
  - refine (proj1 (proj2 (recording_signals room1_closing 7 "H" "room1"
              (mkSession "H" ["H"; "P1"; "P2"] false 1)
              room1_closing_reachable eq_refl Hid)) "H" _).
    simpl. tauto.
  - refine (proj1 (proj2 (proj2 (proj2
              (recording_signals room1_closing 7 "X" "room1"
                 (mkSession "H" ["H"; "P1"; "P2"] false 1)
                 room1_closing_reachable eq_refl Hid)))) "P2" _ eq_refl).
    simpl. tauto.
Defined.

(** ** audio-chunk that is not relayed *)

(** An audio-chunk never changes the state, and it is relayed (one
    emission, to the room of the id, the sender excluded) exactly when the
    id is not empty and names a session that is marked active. *)
Lemma audio_chunk_relayed_iff st now c data id :
  let r := step st (client now c (ev_audio_chunk data id)) in
  fst r = st
  /\ (id <> "" /\ session_exists id st = true ->
      snd r = [mkEmit (to_room_except id c) (audio_chunk data)])
  /\ (id = "" \/ session_exists id st = false -> snd r = []).
Proof.
  simpl. unfold audio_chunk_handler, session_exists, JsMap.has, truthy.
  destruct (String.eqb_spec id "") as [->|Hid]; simpl.
  - split; [reflexivity | split; intros H; [tauto | reflexivity]].
  - destruct (JsMap.get id (activeSessions st)) as [s|]; simpl.
    + destruct (active s); simpl;
        (split; [reflexivity | split; intros H; try reflexivity]).
      * destruct H; congruence.
      * destruct H; congruence.
    + split; [reflexivity | split; intros H; [|reflexivity]].
      destruct H; congruence.
Qed.

(** ** Between close-session and the timer *)

(** X5: once its host has closed a session (non-empty id), and until the
    entry is removed or replaced, the session is closed for newcomers and
    for audio: check-session and [GET /sessions/:id] answer that it does
    not exist, a join-session is refused with SESSION_CLOSED, and an
    audio-chunk for it is delivered to nobody; [GET /sessions] still lists
    it, as inactive, with its host and member count. *)
Theorem closing_window st now h id s :
  JsMap.get id (activeSessions st) = Some s ->
  host s = h ->
  id <> "" ->
  let st' := fst (step st (client now h (ev_close_session id))) in
  session_exists id st' = false
  /\ session_endpoint id st' = answer_missing
  /\ (forall now' c,
        step st' (client now' c (ev_join_session id))
        = (st', [mkEmit (to_socket c)
                   (session_error "SESSION_CLOSED"
                      "This session has been closed by the host.")]))
  /\ (forall now' c data,
        delivered st' (client now' c (ev_audio_chunk data id)) = [])
  /\ In (mkSummary id (JsSet.size (participants s)) h false (createdAt s))
        (sessions_endpoint st').
Proof.
  intros Hg Hh Hid st'.
  assert (Hg' : JsMap.get id (activeSessions st') = Some (with_active false s)).
  { subst st'. simpl. unfold close_session.
    rewrite (proj2 (truthy_true id) Hid), Hg, Hh, String.eqb_refl. simpl.
    apply get_set_eq. }
  repeat split.
  - unfold session_exists. now rewrite Hg'.
  - unfold session_endpoint. now rewrite Hg'.
  - intros now' c. simpl. unfold join_session. now rewrite Hg'.
  - intros now' c data. unfold delivered. simpl.
    unfold audio_chunk_handler, session_exists. rewrite Hg'. simpl.
    now rewrite !orb_true_r.
  - unfold sessions_endpoint. apply in_map_iff.
    exists (id, with_active false s). split.
    + simpl. now rewrite Hh.
    + now apply get_Some_In.
Qed.

Lemma closing_window_witness :
  session_endpoint "room1" room1_closing = answer_missing
  /\ delivered room1_closing (client 7 "H" (ev_audio_chunk [Byte.x61] "room1"))
     = []
  /\ In (mkSummary "room1" 3 "H" false 1) (sessions_endpoint room1_closing).
Proof.
  assert (Hid : "room1" <> "") by discriminate.
  pose proof (closing_window room1 6 "H" "room1"
                (mkSession "H" ["H"; "P1"; "P2"] true 1)
                eq_refl eq_refl Hid) as (_ & H2 & _ & H4 & H5).
  split; [exact H2|]. split; [exact (H4 7%Z "H" [Byte.x61]) | exact H5].
Defined.

(** ** disconnect *)

(** X6: after a disconnect the socket is a member of no session and the
    host of none, it is connected no more and in no room, and every session
    it was not a member of is as before. *)
Theorem disconnect_cleans_up st now c :
  reachable st ->
  let st' := fst (step st (client now c ev_disconnect)) in
  (forall id s', JsMap.get id (activeSessions st') = Some s' ->
                 ~ In c (participants s') /\ host s' <> c)
  /\ JsMap.has c (sockets st') = false
  /\ (forall room, in_room st' room c = false)
  /\ (forall id s, JsMap.get id (activeSessions st) = Some s ->
                   ~ In c (participants s) ->
                   JsMap.get id (activeSessions st') = Some s).
Proof.
  intros Hr st'.
  pose proof (reachable_well_formed _ Hr) as Hwf.
  pose proof (wf_keys _ Hwf) as Hk.
  assert (Hsock : JsMap.get c (sockets st') = None).
  { subst st'. simpl. rewrite (disconnect_closed _ _ Hk). simpl.
    apply get_delete_eq. }
  assert (Hmem : forall id s', JsMap.get id (activeSessions st') = Some s' ->
                               ~ In c (participants s')).
  { intros id s'. subst st'. simpl. rewrite (disconnect_get _ _ _ Hk).
    destruct (JsMap.get id (activeSessions st)) as [s|]; [|discriminate].
    destruct (JsSet.has c (participants s)) eqn:Hc.
    - intros Hd Hin. now destruct (departed_members _ _ _ _ Hd Hin).
    - intros [= <-]. now apply has_false. }
  repeat split.
  - now apply (Hmem id).
  - intros E. apply (Hmem id s' H). rewrite <- E.
    apply (host_member_step st (client now c ev_disconnect) (wf_host _ Hwf)
             id s' H).
  - unfold JsMap.has. now rewrite Hsock.
  - intros room. unfold in_room. now rewrite Hsock.
  - intros id s Hg Hc. subst st'. simpl.
    rewrite (disconnect_get _ _ _ Hk), Hg.
    now rewrite (proj2 (has_false _ _) Hc).
Qed.

Lemma disconnect_cleans_up_witness :
  JsMap.has "P1" (sockets (fst (step room1 (client 6 "P1" ev_disconnect))))
  = false
  /\ in_room (fst (step room1 (client 6 "P1" ev_disconnect))) "room1" "P1"
     = false.
Proof.
  pose proof (disconnect_cleans_up room1 6 "P1" room1_reachable)
    as (_ & H2 & H3 & _).
  split; [exact H2 | exact (H3 "room1")].
Defined.

(** ** leave-session by a member who is not the host *)

(** X13: when a member other than the host leaves a session with a
    non-empty id, the session keeps its host, its flag and the other
    members in their order, the only emission is [participant-left] with
    the leaver's id to the room, and the leaver is still in the room of
    the session. *)
Theorem leave_by_member st now c id s :
  reachable st ->
  JsMap.get id (activeSessions st) = Some s ->
  In c (participants s) ->
  host s <> c ->
  id <> "" ->
  let r := step st (client now c (ev_leave_session id)) in
  JsMap.get id (activeSessions (fst r))
  = Some (mkSession (host s)
            (filter (fun m => negb (String.eqb c m)) (participants s))
            (active s) (createdAt s))
  /\ snd r = [mkEmit (to_room id) (participant_left c)]
  /\ in_room (fst r) id c = true.
Proof.
  intros Hr Hg Hc Hh Hid r. subst r.
  pose proof (reachable_well_formed _ Hr) as Hwf.
  pose proof (wf_host _ Hwf _ _ Hg) as Hin. simpl in Hin.
  assert (Hd : departed c s
               = Some (with_participants (JsSet.delete c (participants s)) s)).
  { unfold departed.
    destruct (JsSet.delete c (participants s)) as [|p ps] eqn:E.
    - exfalso. assert (H : In (host s) (JsSet.delete c (participants s)))
        by (apply In_delete; now split).
      now rewrite E in H.
    - now destruct (String.eqb_spec (host s) c). }
  simpl. unfold leave_session.
  rewrite (proj2 (truthy_true id) Hid).
  rewrite (proj2 (has_true id _) (ex_intro _ s Hg)). simpl.
  rewrite (handleParticipantLeaving_present _ _ _ _ Hg), Hd. simpl.
  rewrite get_set_eq. repeat split.
  - unfold leaving_emits. rewrite Hd.
    now destruct (String.eqb_spec (host s) c).
  - rewrite (in_room_sockets st) by reflexivity.
    now apply (wf_rooms _ Hwf _ _ _ Hg).
Qed.

Lemma leave_by_member_witness :
  JsMap.get "room1"
    (activeSessions (fst (step room1 (client 6 "P1" (ev_leave_session "room1")))))
  = Some (mkSession "H" ["H"; "P2"] true 1)
  /\ in_room (fst (step room1 (client 6 "P1" (ev_leave_session "room1"))))
             "room1" "P1" = true.
Proof.
  assert (Hin : In "P1" ["H"; "P1"; "P2"]) by (simpl; tauto).
  assert (Hh : "H" <> "P1") by discriminate.
  assert (Hid : "room1" <> "") by discriminate.
  pose proof (leave_by_member room1 6 "P1" "room1"
                (mkSession "H" ["H"; "P1"; "P2"] true 1)
                room1_reachable eq_refl Hin Hh Hid) as (H1 & _ & H3).
  split; [exact H1 | exact H3].
Defined.

(** ** The HTTP endpoints *)

(** X11: in every reachable state [GET /sessions] lists every id once,
    each with at least one participant; [GET /sessions/:id] reports a
    session exactly when check-session does, and then with the member
    count that the list gives for that id; a listed session that is
    inactive is reported missing. *)
Theorem http_endpoints_consistent st :
  reachable st ->
  NoDup (map sum_id (sessions_endpoint st))
  /\ (forall r, In r (sessions_endpoint st) ->
        (1 <= sum_participants r)%nat
        /\ session_endpoint (sum_id r) st
           = if sum_active r
             then answer_exists (sum_id r) (sum_participants r) true
             else answer_missing)
  /\ (forall id,
        session_endpoint id st = answer_missing
        <-> session_exists id st = false)
  /\ (forall id id' n a,
        session_endpoint id st = answer_exists id' n a ->
        id' = id /\ a = true
        /\ exists h t, In (mkSummary id n h true t) (sessions_endpoint st)).
Proof.
  intros Hr. pose proof (reachable_well_formed _ Hr) as Hwf.
  pose proof (wf_keys _ Hwf) as Hk. repeat split.
  - unfold sessions_endpoint. rewrite map_map. simpl. exact Hk.
  - unfold sessions_endpoint in H. apply in_map_iff in H as [[id s] [<- Hin]].
    simpl. pose proof (In_get _ _ _ Hk Hin) as Hg.
    pose proof (wf_host _ Hwf _ _ Hg) as Hh. simpl in Hh.
    unfold JsSet.size. destruct (participants s); [contradiction | simpl; apply le_n_S, Nat.le_0_l].
  - unfold sessions_endpoint in H. apply in_map_iff in H as [[id s] [<- Hin]].
    simpl. unfold session_endpoint.
    now rewrite (In_get _ _ _ Hk Hin).
  - unfold session_endpoint, session_exists.
    destruct (JsMap.get id (activeSessions st)) as [s|]; [|reflexivity].
    now destruct (active s).
  - unfold session_endpoint, session_exists.
    destruct (JsMap.get id (activeSessions st)) as [s|]; [|reflexivity].
    destruct (active s); [discriminate | reflexivity].
  - unfold session_endpoint in H.
    destruct (JsMap.get id (activeSessions st)) as [s|]; [|discriminate].
    destruct (active s); [|discriminate]. now injection H as <- _ _.
  - unfold session_endpoint in H.
    destruct (JsMap.get id (activeSessions st)) as [s|]; [|discriminate].
    destruct (active s); [|discriminate]. now injection H as _ _ <-.
  - unfold session_endpoint in H.
    destruct (JsMap.get id (activeSessions st)) as [s|] eqn:Hg; [|discriminate].
    destruct (active s) eqn:Ha; [|discriminate]. injection H as _ <- _.
    exists (host s), (createdAt s). unfold sessions_endpoint.
    apply in_map_iff. exists (id, s). simpl. rewrite Ha.
    split; [reflexivity | now apply get_Some_In].
Qed.

Lemma http_endpoints_consistent_witness :
  NoDup (map sum_id (sessions_endpoint room1_closing))
  /\ session_endpoint "room1" room1 = answer_exists "room1" 3 true.
Proof.
  split.
  - exact (proj1 (http_endpoints_consistent room1_closing
                    room1_closing_reachable)).
  - reflexivity.
Defined.

(** * lib/audioUtils.ts and pages/RecordingPage.tsx *)

Lemma first_supported_spec (sup : string -> bool) (l : list string) :
  Forall (fun f => f <> "") l ->
  (AudioUtils.first_supported sup l = ""
   <-> forall f, In f l -> sup f = false)
  /\ (AudioUtils.first_supported sup l <> "" ->
      sup (AudioUtils.first_supported sup l) = true
      /\ exists before after,
           l = before ++ AudioUtils.first_supported sup l :: after
           /\ forall f, In f before -> sup f = false).
Proof.
  induction 1 as [|f l Hf Hl IH]; simpl.
  - split; [split; [intros _ f [] | reflexivity] | congruence].
  - unfold AudioUtils.isFormatSupported. destruct (sup f) eqn:E.
    + split.
      * split; [contradiction|]. intros H. rewrite (H f) in E by now left.
        discriminate.
      * intros _. split; [exact E|]. exists [], l. split; [reflexivity|].
        intros g [].
    + destruct IH as [IH1 IH2]. split.
      * rewrite IH1. split.
        -- intros H g [<-|Hg]; auto.
        -- intros H g Hg. apply H. now right.
      * intros Hne. destruct (IH2 Hne) as (Hs & before & after & Heq & Hb).
        split; [exact Hs|]. exists (f :: before), after.
        split; [simpl; f_equal; exact Heq|]. intros g [<-|Hg]; auto.
Qed.

(** X14: [getBestSupportedFormat] returns the empty string exactly when
    the browser supports none of audio/mp3, audio/mpeg, audio/ogg and
    audio/webm; otherwise it returns one of them that is supported, and
    none of those that come before it in that order is supported. *)
Theorem best_format_is_first_supported (isTypeSupported : string -> bool) :
  let best := AudioUtils.getBestSupportedFormat isTypeSupported in
  (best = "" <-> forall f, In f AudioUtils.formats -> isTypeSupported f = false)
  /\ (best <> "" ->
      isTypeSupported best = true
      /\ exists before after,
           AudioUtils.formats = before ++ best :: after
           /\ forall f, In f before -> isTypeSupported f = false).
Proof.
  apply first_supported_spec. unfold AudioUtils.formats.
  repeat constructor; discriminate.
Qed.

Lemma best_format_cases (sup : string -> bool) :
  In (AudioUtils.getBestSupportedFormat sup) ("" :: AudioUtils.formats).
Proof.
  unfold AudioUtils.getBestSupportedFormat, AudioUtils.formats. simpl.
  unfold AudioUtils.isFormatSupported.
  destruct (sup "audio/mp3"); [tauto|].
  destruct (sup "audio/mpeg"); [tauto|].
  destruct (sup "audio/ogg"); [tauto|].
  destruct (sup "audio/webm"); tauto.
Qed.

(** X15: the [audioFormat] state of the recording page is never empty: it
    is the best supported format when there is one and audio/webm
    otherwise.  The mime type used for the recording is never empty
    either, and without a recorder the file saved gets the extension that
    [getFileExtension] gives for [audioFormat], which is mp3, ogg or
    webm. *)
Theorem audio_format_state (isTypeSupported : string -> bool) :
  let best := AudioUtils.getBestSupportedFormat isTypeSupported in
  let fmt := RecordingPage.audioFormat isTypeSupported in
  fmt = (if String.eqb best "" then "audio/webm" else best)
  /\ In fmt AudioUtils.formats
  /\ (forall recorder a, RecordingPage.currentMimeType recorder a <> "")
  /\ RecordingPage.currentMimeType None fmt = fmt
  /\ RecordingPage.fileExtension (RecordingPage.currentMimeType None fmt)
     = AudioUtils.getFileExtension fmt
  /\ In (AudioUtils.getFileExtension fmt) ["mp3"; "ogg"; "webm"].
Proof.
  intros best fmt.
  assert (Hfmt : fmt = (if String.eqb best "" then "audio/webm" else best)).
  { subst fmt best. unfold RecordingPage.audioFormat, truthy.
    now destruct (String.eqb _ ""). }
  assert (Hin : In fmt AudioUtils.formats).
  { rewrite Hfmt. subst best.
    destruct (best_format_cases isTypeSupported) as [<-|H].
    - simpl. tauto.
    - destruct (String.eqb_spec (AudioUtils.getBestSupportedFormat isTypeSupported) "")
        as [_|_]; [simpl; tauto | exact H]. }
  split; [exact Hfmt|]. split; [exact Hin|]. split.
  - intros recorder a. unfold RecordingPage.currentMimeType, truthy.
    destruct recorder as [m|].
    + destruct (String.eqb_spec m ""); simpl; [|assumption].
      destruct (String.eqb_spec a ""); simpl; [discriminate | assumption].
    + destruct (String.eqb_spec a ""); simpl; [discriminate | assumption].
  - clear Hfmt. simpl in Hin.
    destruct Hin as [<-|[<-|[<-|[<-|[]]]]]; repeat split;
      try reflexivity; simpl; tauto.
Qed.

(** X16: the extension chosen in [saveRecording] is always mp3, ogg or
    webm, and it is the one [getFileExtension] gives whenever that
    function knows the mime type; for a mime type with codecs, as recorders
    report it, [getFileExtension] falls back to "audio" while
    [saveRecording] still finds the container. *)
Theorem file_extensions_agree :
  (forall m, In (RecordingPage.fileExtension m) ["mp3"; "ogg"; "webm"])
  /\ (forall m, AudioUtils.getFileExtension m <> "audio" ->
                RecordingPage.fileExtension m = AudioUtils.getFileExtension m)
  /\ AudioUtils.getFileExtension "audio/webm;codecs=opus" = "audio"
  /\ RecordingPage.fileExtension "audio/webm;codecs=opus" = "webm"
  /\ RecordingPage.fileExtension "audio/ogg;codecs=opus" = "ogg".
Proof.
  split; [|split; [|repeat split]].
  - intros m. unfold RecordingPage.fileExtension.
    destruct (_ || _); [simpl; tauto|].
    destruct (RecordingPage.includes "ogg" m); [simpl; tauto|].
    destruct (RecordingPage.includes "webm" m); simpl; tauto.
  - intros m. unfold AudioUtils.getFileExtension.
    destruct (String.eqb_spec m "audio/mp3") as [->|_]; [reflexivity|].
    destruct (String.eqb_spec m "audio/mpeg") as [->|_]; [reflexivity|].
    destruct (String.eqb_spec m "audio/ogg") as [->|_]; [reflexivity|].
    destruct (String.eqb_spec m "audio/webm") as [->|_]; [reflexivity|].
    simpl. congruence.
Qed.

Lemma file_extensions_agree_witness :
  RecordingPage.fileExtension "audio/mpeg" = AudioUtils.getFileExtension "audio/mpeg".
Proof.
  apply (proj1 (proj2 file_extensions_agree)). discriminate.
Defined.

(** ** The participants shown by the page *)

Lemma step_participants_list st i e l :
  well_formed st ->
  In e (snd (step st i)) -> msg e = participants_list l -> NoDup l.
Proof.
  intros Hwf.
  destruct i as [now sock ev | k]; [destruct ev as [|k|k ack|k|k|k|chunk k|k|k|] |];
    simpl.
  - intros [].
  - intros [<-|[]]; discriminate.
  - destruct ack; simpl; [intros [<-|[]]; discriminate | intros []].
  - unfold join_session.
    destruct (JsMap.get k (activeSessions st)) as [s|] eqn:E.
    + destruct (active s); simpl.
      * intros [<-|[<-|[<-|[]]]]; simpl; try discriminate.
        intros [= <-]. apply NoDup_filter, NoDup_add.
        apply (wf_nodup _ Hwf _ _ E).
      * intros [<-|[]]; discriminate.
    + simpl. intros [<-|[]]; discriminate.
  - unfold leave_session.
    destruct (truthy k && JsMap.has k (activeSessions st)); [|intros []].
    destruct (JsMap.get k (activeSessions st)) as [s|] eqn:E.
    + rewrite (handleParticipantLeaving_present _ _ _ _ E). simpl.
      unfold leaving_emits. intros [<-|H]; [discriminate|].
      destruct (departed sock s); [|destruct H].
      destruct (String.eqb (host s) sock); [|destruct H].
      destruct H as [<-|[]]. discriminate.
    + rewrite (handleParticipantLeaving_absent _ _ _ E). intros [].
  - unfold close_session.
    destruct (truthy k); [|intros []].
    destruct (JsMap.get k (activeSessions st)) as [s|]; [|intros []].
    destruct (String.eqb (host s) sock); simpl; intros [<-|[]]; discriminate.
  - unfold audio_chunk_handler.
    destruct (_ || _); simpl; [intros [] | intros [<-|[]]; discriminate].
  - unfold recording_started.
    destruct (_ && _); simpl; [intros [<-|[]]; discriminate | intros []].
  - unfold stop_recording_handler.
    destruct (_ && _); simpl; [intros [<-|[]]; discriminate | intros []].
  - rewrite (disconnect_closed _ _ (wf_keys _ Hwf)). simpl.
    intros H. apply in_flat_map in H as [[id s] [_ H]].
    unfold leave_entry_emits, leaving_emits in H. simpl in H.
    destruct (JsSet.has sock (participants s)); [|destruct H].
    destruct H as [<-|H]; [discriminate|].
    destruct (departed sock s); [|destruct H].
    destruct (String.eqb (host s) sock); [|destruct H].
    destruct H as [<-|[]]. discriminate.
  - unfold close_timeout. simpl.
    destruct (JsMap.has k (activeSessions st)); intros [].
Qed.

(** X17: the list of participants kept by the recording page never shows
    a socket twice: whatever the server delivers in a step from a reachable
    state, the update keeps a list without repetition that way.
    A [participant-left] removes the id, and undoes a [participant-joined]
    for an id that was not in the list. *)
Theorem page_participants_no_repetition :
  (forall st i r m prev,
      reachable st -> In (r, m) (delivered st i) ->
      NoDup prev -> NoDup (RecordingPage.receive m prev))
  /\ (forall id prev,
        ~ In id (RecordingPage.on_participant_left id prev)
        /\ (~ In id prev ->
            RecordingPage.on_participant_left id
              (RecordingPage.on_participant_joined id prev) = prev)).
Proof.
  split.
  - intros st i r m prev Hr Hin Hnd.
    destruct m; simpl; try assumption.
    + unfold RecordingPage.on_participant_joined.
      fold (JsSet.has id prev). fold (JsSet.add id prev).
      now apply NoDup_add.
    + unfold delivered in Hin.
      apply deliveries_inv in Hin as [e [He [Hm _]]].
      apply (step_participants_list st i e ids
               (reachable_well_formed _ Hr) He Hm).
    + now apply NoDup_filter.
  - intros id prev. split.
    + unfold RecordingPage.on_participant_left. rewrite filter_In.
      rewrite String.eqb_refl. simpl. intros [_ H]. discriminate.
    + intros Hn. unfold RecordingPage.on_participant_joined.
      fold (JsSet.has id prev). rewrite (proj2 (has_false _ _) Hn).
      unfold RecordingPage.on_participant_left. rewrite filter_app. simpl.
      rewrite String.eqb_refl. simpl. rewrite app_nil_r.
      apply forallb_filter_id. apply forallb_forall. intros x Hx.
      apply negb_true_iff, String.eqb_neq. intros ->. contradiction.
Qed.

Lemma page_participants_no_repetition_witness :
  NoDup (RecordingPage.receive (participant_joined "P3") ["H"; "P1"])
  /\ RecordingPage.on_participant_left "P3"
       (RecordingPage.on_participant_joined "P3" ["H"; "P1"])
     = ["H"; "P1"].
Proof.
  destruct page_participants_no_repetition as [H1 H2].
  assert (Hr : reachable (fst (step room1 (client 6 "P3" ev_connection))))
    by (apply reach_step; [apply room1_reachable | reflexivity]).
  split.
  - refine (H1 _ (client 7 "P3" (ev_join_session "room1")) "H"
              (participant_joined "P3") ["H"; "P1"] Hr _ _).
    + vm_compute. tauto.
    + repeat constructor; simpl; intuition discriminate.
  - apply (proj2 (H2 "P3" ["H"; "P1"])). simpl. intuition discriminate.
Defined.

(** * The first version of the server *)

Section Forget.
Context {V W : Type}.
Variable f : V -> W.

Lemma get_map_values k (m : JsMap.t V) :
  JsMap.get k (map (fun e => (fst e, f (snd e))) m)
  = option_map f (JsMap.get k m).
Proof.
  induction m as [|[k' v] m IH]; simpl; [reflexivity|].
  now destruct (String.eqb k k').
Qed.

Lemma set_map_values k v (m : JsMap.t V) :
  JsMap.set k (f v) (map (fun e => (fst e, f (snd e))) m)
  = map (fun e => (fst e, f (snd e))) (JsMap.set k v m).
Proof.
  induction m as [|[k' v'] m IH]; simpl; [reflexivity|].
  destruct (String.eqb k k'); simpl; [reflexivity | now rewrite IH].
Qed.

Lemma delete_map_values k (m : JsMap.t V) :
  JsMap.delete k (map (fun e => (fst e, f (snd e))) m)
  = map (fun e => (fst e, f (snd e))) (JsMap.delete k m).
Proof.
  induction m as [|[k' v'] m IH]; simpl; [reflexivity|].
  destruct (String.eqb k k'); simpl; [assumption | now rewrite IH].
Qed.

Lemma keys_map_values (m : JsMap.t V) :
  JsMap.keys (map (fun e => (fst e, f (snd e))) m) = JsMap.keys m.
Proof. unfold JsMap.keys. rewrite map_map. reflexivity. Qed.
End Forget.

Lemma without_new_host_app out out' :
  without_new_host (out ++ out')
  = without_new_host out ++ without_new_host out'.
Proof. apply filter_app. Qed.

Lemma without_new_host_leaving c id s :
  without_new_host (leaving_emits c id s)
  = [mkEmit (to_room id) (participant_left c)].
Proof.
  unfold leaving_emits. simpl. f_equal.
  destruct (departed c s); [|reflexivity].
  now destruct (String.eqb (host s) c).
Qed.

Lemma disconnect_visit_forget c acc k :
  ServerJs.disconnect_visit c
    (forget (fst acc), without_new_host (snd acc)) k
  = (forget (fst (disconnect_visit c acc k)),
     without_new_host (snd (disconnect_visit c acc k))).
Proof.
  unfold ServerJs.disconnect_visit, disconnect_visit. simpl.
  unfold forget at 1. simpl. rewrite get_map_values.
  destruct (JsMap.get k (activeSessions (fst acc))) as [s|] eqn:E; simpl;
    [|reflexivity].
  destruct (JsSet.has c (participants s)); [|reflexivity].
  rewrite (handleParticipantLeaving_present _ _ _ _ E). simpl.
  rewrite without_new_host_app, without_new_host_leaving.
  unfold departed.
  destruct (JsSet.delete c (participants s)) as [|p ps]; simpl.
  - unfold forget. simpl. now rewrite delete_map_values.
  - destruct (String.eqb (host s) c); simpl; unfold forget; simpl;
      now rewrite <- set_map_values.
Qed.

Lemma disconnect_fold_forget c l acc :
  fold_left (ServerJs.disconnect_visit c) l
            (forget (fst acc), without_new_host (snd acc))
  = (forget (fst (fold_left (disconnect_visit c) l acc)),
     without_new_host (snd (fold_left (disconnect_visit c) l acc))).
Proof.
  revert acc. induction l as [|k l IH]; intros acc; simpl; [reflexivity|].
  now rewrite disconnect_visit_forget, IH.
Qed.

(** X18: the disconnect handler of the first version of the server, which
    has the departure written out in it, changes the registry and the
    rooms exactly as the present one does (the fields it does not have
    apart), and emits the same [participant-left] events in the same order;
    the only difference is that it never emits [new-host]. *)
Theorem first_version_disconnect st c :
  ServerJs.disconnect c (forget st)
  = (forget (fst (disconnect c st)), without_new_host (snd (disconnect c st))).
Proof.
  unfold ServerJs.disconnect, disconnect. simpl.
  rewrite keys_map_values.
  apply (disconnect_fold_forget c _ (socket_close c st, [])).
Qed.

Lemma socket_join_forget a r st :
  forget (socket_join a r st) = ServerJs.socket_join a r (forget st).
Proof.
  unfold socket_join, ServerJs.socket_join, forget. simpl.
  now destruct (JsMap.get a (sockets st)).
Qed.

(** X20: as long as the session concerned is absent or active, the
    handlers of the first version for create-session, join-session and
    audio-chunk change the registry and the rooms exactly as the present
    ones do (the fields it does not have apart) and emit the same events,
    except that the first version never emits [connection-successful]. *)
Theorem first_version_agrees st now c id data :
  session_exists id st = JsMap.has id (activeSessions st) ->
  let old_of (r : result) : ServerJs.result :=
    (forget (fst r), without_connection_successful (snd r)) in
  ServerJs.create_session c id (forget st)
  = old_of (step st (client now c (ev_create_session id)))
  /\ ServerJs.join_session c id (forget st)
     = old_of (step st (client now c (ev_join_session id)))
  /\ ServerJs.audio_chunk_handler c data id (forget st)
     = old_of (step st (client now c (ev_audio_chunk data id))).
Proof.
  intros Hact old_of. subst old_of.
  assert (Hnew : forall v,
            ServerJs.socket_join c id
              (ServerJs.mkServer
                 (JsMap.set id (ServerJs.mkSession c [c])
                    (ServerJs.activeSessions (forget st)))
                 (ServerJs.sockets (forget st)))
            = forget (socket_join c id
                        (with_sessions
                           (JsMap.set id (new_session c v) (activeSessions st))
                           st))).
  { intros v. rewrite socket_join_forget. f_equal. unfold forget. simpl.
    f_equal. now rewrite <- (set_map_values forget_session). }
  unfold session_exists, JsMap.has in Hact. split; [|split].
  - cbn [step]. unfold create_session, ServerJs.create_session.
    now rewrite (Hnew now).
  - cbn [step]. unfold join_session, ServerJs.join_session.
    replace (JsMap.get id (ServerJs.activeSessions (forget st)))
      with (option_map forget_session (JsMap.get id (activeSessions st)))
      by (symmetry; apply get_map_values).
    destruct (JsMap.get id (activeSessions st)) as [s|] eqn:E;
      cbn [option_map].
    + rewrite Hact. cbn [negb fst snd]. f_equal.
      rewrite <- socket_join_forget. unfold forget.
      cbn [ServerJs.activeSessions ServerJs.sockets activeSessions sockets
           with_sessions].
      rewrite socket_join_sessions. f_equal.
      now rewrite <- (set_map_values forget_session).
    + now rewrite (Hnew now).
  - cbn [step]. unfold audio_chunk_handler, ServerJs.audio_chunk_handler.
    unfold session_exists, JsMap.has.
    replace (JsMap.get id (ServerJs.activeSessions (forget st)))
      with (option_map forget_session (JsMap.get id (activeSessions st)))
      by (symmetry; apply get_map_values).
    destruct (truthy id); simpl; [|reflexivity].
    destruct (JsMap.get id (activeSessions st)) as [s|]; simpl; [|reflexivity].
    now rewrite Hact.
Qed.

Lemma first_version_agrees_witness :
  fst (ServerJs.join_session "P1" "room2" (forget room1))
  = forget (fst (step room1 (client 6 "P1" (ev_join_session "room2")))).
Proof.
  pose proof (first_version_agrees room1 6 "P1" "room2" [] eq_refl)
    as (_ & H & _).
  cbv zeta in H. now rewrite H.
Defined.

(** * Members are connected sockets *)

(** X19: in every reachable state every member of every session is a
    connected socket, and it is in the socket.io room of that session. *)
Theorem members_are_connected st id s p :
  reachable st ->
  JsMap.get id (activeSessions st) = Some s ->
  In p (participants s) ->
  JsMap.has p (sockets st) = true /\ in_room st id p = true.
Proof.
  intros Hr Hg Hp.
  pose proof (wf_rooms _ (reachable_well_formed _ Hr) _ _ _ Hg Hp) as H.
  split; [now apply in_room_connected with id | exact H].
Qed.

Lemma members_are_connected_witness :
  JsMap.has "P2" (sockets room1) = true /\ in_room room1 "room1" "P2" = true.
Proof.
  refine (members_are_connected room1 "room1"
            (mkSession "H" ["H"; "P1"; "P2"] true 1) "P2"
            room1_reachable eq_refl _).
  simpl. tauto.
Defined.
